(** * msgpuck: the MessagePack encoder (Encoder.js)

    A shallow embedding of the [Encoder] class of [dist/v8-6.2/Encoder.js]
    and [dist/v8v62/cjs/Encoder.js], and the properties of its integer
    ladder, its string scratch buffer and its codec walk.

    JavaScript numbers that hold integers are modelled by [Z]; binary
    strings (one character per byte) by lists of character codes. *)

From Stdlib Require Import ZArith List Lia Bool.
Import ListNotations.
Open Scope Z_scope.

(** ** JavaScript 32-bit integer operators *)

Module JS.

(** [ToInt32] and [ToUint32] of an integer-valued number. *)
Definition to_int32 (x : Z) : Z := (x + 0x80000000) mod 0x100000000 - 0x80000000.
Definition to_uint32 (x : Z) : Z := x mod 0x100000000.

(** [a >> k], [a >>> k], [a & b], [a | b]. *)
Definition shr (a k : Z) : Z := Z.shiftr (to_int32 a) (to_uint32 k mod 32).
Definition ushr (a k : Z) : Z := Z.shiftr (to_uint32 a) (to_uint32 k mod 32).
Definition and (a b : Z) : Z := Z.land (to_int32 a) (to_int32 b).
Definition or (a b : Z) : Z := Z.lor (to_int32 a) (to_int32 b).

(** [(num / den) >> 0]: the quotient is a fraction in general, and [ToInt32]
    truncates it toward zero before wrapping. *)
Definition div_shr0 (num den : Z) : Z := to_int32 (Z.quot num den).

(** The value of an integer literal: the nearest double, ties to the even
    significand (53 bits). *)
Definition literal (z : Z) : Z :=
  let a := Z.abs z in
  let e := Z.log2 a - 52 in
  if e <=? 0 then z
  else
    let q := a / 2 ^ e in
    let r := a mod 2 ^ e in
    let half := 2 ^ (e - 1) in
    let q' := if r <? half then q
              else if half <? r then q + 1
              else if Z.even q then q else q + 1 in
    Z.sgn z * (q' * 2 ^ e).

End JS.

Infix ">>" := JS.shr (at level 32, left associativity).
Infix ">>>" := JS.ushr (at level 32, left associativity).
Infix "&" := JS.and (at level 33, left associativity).
Infix ".|" := JS.or (at level 34, left associativity).

(** ** Binary strings and the [CHR] table *)

(** A binary string: the codes of its characters. *)
Definition binary := list Z.

(** The text of [undefined], which string concatenation produces for a
    missing table entry. *)
Definition undefined_text : binary := [117; 110; 100; 101; 102; 105; 110; 101; 100].

(** [CHR[i]] of package ascii-chr: the one-character string of code [i] for
    [0 <= i <= 255]. *)
Definition CHR (i : Z) : binary :=
  if (0 <=? i) && (i <=? 255) then [i] else undefined_text.

(** ** Integers *)

(** The two copies of the encoder under [dist/]. *)
Inductive dist := v8_6_2 | v8v62_cjs.

(** [encodeInt64] as [dist/v8-6.2] defines it; [dist/v8v62/cjs] imports a
    function of that name from [./encoders], taken to be this one. *)
Definition encodeInt64 (hi lo : Z) : binary :=
  CHR (hi >> 24 & 0xff)
  ++ CHR (hi >> 16 & 0xff)
  ++ CHR (hi >> 8 & 0xff)
  ++ CHR (hi & 0xff)
  ++ CHR (lo >> 24 & 0xff)
  ++ CHR (lo >> 16 & 0xff)
  ++ CHR (lo >> 8 & 0xff)
  ++ CHR (lo & 0xff).

(** What [encodeInt] returns below and above the 64-bit safe ladder; the only
    place where the two copies differ in [encodeInt]. *)
Definition below_safe (d : dist) : binary :=
  match d with
  | v8_6_2 => [0xd3; 0xff; 0xdf; 0xff; 0xff; 0xff; 0xff; 0xff; 0xff]
  | v8v62_cjs => [0xcb; 0xff; 0xf0; 0x00; 0x00; 0x00; 0x00; 0x00; 0x00]
  end.

Definition above_safe (d : dist) : binary :=
  match d with
  | v8_6_2 => [0xcf; 0x00; 0x20; 0x00; 0x00; 0x00; 0x00; 0x00; 0x00]
  | v8v62_cjs => [0xcb; 0x7f; 0xf0; 0x00; 0x00; 0x00; 0x00; 0x00; 0x00]
  end.

Definition encodeInt (d : dist) (num : Z) : binary :=
  if num <? 0 then
    (* negative fixint *)
    if num >? - 0x21 then
      CHR (num & 0xff)
    (* int 8 *)
    else if num >? - 0x81 then
      [0xd0]
      ++ CHR (num & 0xff)
    (* int 16 *)
    else if num >? - 0x8001 then
      [0xd1]
      ++ CHR (num >> 8 & 0xff)
      ++ CHR (num & 0xff)
    (* int 32 *)
    else if num >? - 0x80000001 then
      [0xd2]
      ++ CHR (num >> 24 & 0xff)
      ++ CHR (num >> 16 & 0xff)
      ++ CHR (num >> 8 & 0xff)
      ++ CHR (num & 0xff)
    (* int 64 safe *)
    else if num >? - JS.literal 0x20000000000001 then
      [0xd3]
      ++ encodeInt64 (JS.div_shr0 num 0x100000000 - 1) (num >>> 0)
    (* -Infinity *)
    else below_safe d
  (* positive fixint *)
  else if num <? 0x80 then
    CHR num
  (* uint 8 *)
  else if num <? 0x100 then
    [0xcc]
    ++ CHR num
  (* uint 16 *)
  else if num <? 0x10000 then
    [0xcd]
    ++ CHR (num >> 8)
    ++ CHR (num & 0xff)
  (* uint 32 *)
  else if num <? 0x100000000 then
    [0xce]
    ++ CHR (num >> 24 & 0xff)
    ++ CHR (num >> 16 & 0xff)
    ++ CHR (num >> 8 & 0xff)
    ++ CHR (num & 0xff)
  (* uint 64 safe *)
  else if num <? 0x20000000000000 then
    [0xcf]
    ++ encodeInt64 (num >>> 11 .| 1) num
  (* Infinity *)
  else above_safe d.

(** ** Strings *)

(** A JavaScript string: its UTF-16 code units. *)
Definition jsstring := list Z.

Definition str_length (s : jsstring) : Z := Z.of_nat (length s).

Definition is_high_surrogate (c : Z) : bool := (0xd800 <=? c) && (c <=? 0xdbff).
Definition is_low_surrogate (c : Z) : bool := (0xdc00 <=? c) && (c <=? 0xdfff).

(** UTF-8 bytes of one code point. *)
Definition utf8_code_point (c : Z) : binary :=
  if c <? 0x80 then [c]
  else if c <? 0x800 then [0xc0 + c / 64; 0x80 + c mod 64]
  else if c <? 0x10000 then [0xe0 + c / 4096; 0x80 + (c / 64) mod 64; 0x80 + c mod 64]
  else [0xf0 + c / 262144; 0x80 + (c / 4096) mod 64; 0x80 + (c / 64) mod 64; 0x80 + c mod 64].

(** The UTF-8 form of a string, one group of bytes per character: a
    surrogate pair makes one 4-byte character, a lone surrogate is replaced
    by U+FFFD. *)
Fixpoint utf8_chars (s : jsstring) : list binary :=
  match s with
  | [] => []
  | c :: rest =>
      if is_high_surrogate c then
        match rest with
        | c2 :: rest2 =>
            if is_low_surrogate c2
            then utf8_code_point (0x10000 + (c - 0xd800) * 0x400 + (c2 - 0xdc00)) :: utf8_chars rest2
            else utf8_code_point 0xfffd :: utf8_chars rest
        | [] => [utf8_code_point 0xfffd]
        end
      else if is_low_surrogate c then utf8_code_point 0xfffd :: utf8_chars rest
      else utf8_code_point c :: utf8_chars rest
  end.

(** [utf8toBin] of package utf8-bin: each code unit on its own, in one, two
    or three bytes; the two halves of a surrogate pair come out as two
    3-byte sequences, they are not joined into one 4-byte character. *)
Definition utf8toBin (str : jsstring) : binary := concat (map utf8_code_point str).

(** ** Node buffers *)

(** A [Buffer]: its length, and the bytes written since it was allocated
    (from offset 0); [Buffer.allocUnsafe] leaves the rest unspecified. *)
Record Buffer := { buf_length : Z; buf_bytes : list Z }.

(** [buffer.constants.MAX_LENGTH] of the 64-bit Node releases built on V8
    6.2, which the two copies are tuned for. Later releases allow more;
    what is proved about buffers below holds for sizes up to this one. *)
Definition kMaxLength : Z := 0x7fffffff.

(** [Buffer.allocUnsafe(size)]: [None] stands for the RangeError it throws
    for a size it refuses. *)
Definition alloc (size : Z) : option Buffer :=
  if (0 <=? size) && (size <=? kMaxLength)
  then Some {| buf_length := size; buf_bytes := [] |}
  else None.

(** The characters that fit, whole, into [room] bytes. *)
Fixpoint fitting (room : Z) (chars : list binary) : binary :=
  match chars with
  | [] => []
  | c :: rest =>
      let n := Z.of_nat (length c) in
      if n <=? room then c ++ fitting (room - n) rest else []
  end.

(** [buf.utf8Write(str, 0)]: writes as many whole characters as fit and
    returns the number of bytes written. *)
Definition utf8Write (b : Buffer) (str : jsstring) : Z * Buffer :=
  let written := fitting (buf_length b) (utf8_chars str) in
  (Z.of_nat (length written),
   {| buf_length := buf_length b;
      buf_bytes := written ++ skipn (length written) (buf_bytes b) |}).

(** [buf.latin1Slice(0, len)]. *)
Definition latin1Slice (b : Buffer) (len : Z) : binary := firstn (Z.to_nat len) (buf_bytes b).

(** ** Values *)

(** A number: an integer-valued double, or any other double (a fraction, an
    infinity, NaN) by its IEEE-754 bits. *)
Inductive number :=
| NInt (z : Z)
| NFrac (bits : Z).

Scheme All for list.
Scheme All for prod.

(** The values [encode] can be given. An object is the list of its own
    enumerable properties, in the order of [Object.keys]. *)
Inductive value :=
| VUndefined
| VFunction
| VSymbol
| VBigInt (z : Z)
| VStr (s : jsstring)
| VNum (n : number)
| VBool (b : bool)
| VNull
| VArray (arr : list value)
| VBuffer (buf : list Z)
| VExt (type : Z) (data : binary)
| VObject (props : list (jsstring * value)).

Inductive type_name :=
| Undefined | Function | Symbol | BigInt | Str | Num | Bool | Obj.

Definition typeof (v : value) : type_name :=
  match v with
  | VUndefined => Undefined
  | VFunction => Function
  | VSymbol => Symbol
  | VBigInt _ => BigInt
  | VStr _ => Str
  | VNum _ => Num
  | VBool _ => Bool
  | VNull | VArray _ | VBuffer _ | VExt _ _ | VObject _ => Obj
  end.

(** ** The encoder's state and effects *)

(** The fields of an [Encoder] that [encode] assigns. *)
Record scratch := { buffer : option Buffer; bufferAlloc : Z }.

(** What can be thrown. *)
Inductive error :=
| EncodingFailed (v : value) (kind : type_name)
| TypeError
| RangeError
| Thrown (v : value).

Inductive outcome (A : Type) :=
| Return (a : A)
| Throw (e : error).
Arguments Return {A} a.
Arguments Throw {A} e.

(** A method call: it may assign the scratch fields, and returns or throws. *)
Definition M (A : Type) : Type := scratch -> outcome A * scratch.

Definition ret {A} (a : A) : M A := fun st => (Return a, st).
Definition throw {A} (e : error) : M A := fun st => (Throw e, st).
Definition bind {A B} (m : M A) (k : A -> M B) : M B :=
  fun st =>
    match m st with
    | (Return a, st') => k a st'
    | (Throw e, st') => (Throw e, st')
    end.

Notation "x <- m ;; k" := (bind m (fun x => k))
  (at level 61, m at next level, right associativity).

(** A codec, as [encode] uses it: [codec.encode(encoder, value)] returns a
    binary string or [null]. The codec is handed the encoder, so it may
    assign its fields. *)
Record Codec := {
  codec_type : Z;
  codec_encode : value -> M (option binary)
}.

(** [objectKeys === 'ascii'] or not. *)
Inductive key_encoder :=
| KeyAscii (encodeAscii : jsstring -> binary)
| KeyStr.

(** The fields the constructor sets once. [encodeFloat] is what
    [selectEncoderFloat(float)] returned and [encodeAscii] the function of
    that name, both of module [./encoders]. *)
Record Encoder := {
  handler : value -> M binary;
  encodeFloat : Z -> binary;
  encodeObjectKeys : key_encoder;
  codecs : option (list Codec);
  bufferMinLen : Z;
  bufferMinAlloc : Z
}.

(** [this.buffer = null; this.bufferAlloc = 0]. *)
Definition new_scratch : scratch := {| buffer := None; bufferAlloc := 0 |}.

(** ** Strings, binary data, extensions *)

(** The growth step of [encodeStr]: when the string is longer than the
    capacity, [bufferAlloc] is assigned and then the buffer allocated; when
    the allocation throws, the new capacity stays with the old buffer. *)
Definition grow (e : Encoder) (len : Z) : M unit := fun st =>
  if len >? bufferAlloc st then
    let bufferAlloc' := bufferMinAlloc e * (len >>> 10 .| 2) in
    match alloc bufferAlloc' with
    | Some b => (Return tt, {| buffer := Some b; bufferAlloc := bufferAlloc' |})
    | None => (Throw RangeError, {| buffer := buffer st; bufferAlloc := bufferAlloc' |})
    end
  else (Return tt, st).

Definition encodeStr (e : Encoder) (str : jsstring) : M binary := fun st =>
  let len := str_length str in
  if len =? 0 then (Return [0xa0], st)
  else
    let '(written, st') :=
      if len <? bufferMinLen e then
        let bin := utf8toBin str in
        (Return (Z.of_nat (length bin), bin), st)
      else
        let '(allocated, st1) := grow e len st in
        match allocated with
        | Throw err => (Throw err, st1)
        | Return _ =>
            match buffer st1 with
            | None => (Throw TypeError, st1)
            | Some b =>
                let '(len', b') := utf8Write b str in
                (Return (len', latin1Slice b' len'),
                 {| buffer := Some b'; bufferAlloc := bufferAlloc st1 |})
            end
        end in
    match written with
    | Throw err => (Throw err, st')
    | Return (len, bin) =>
        (Return
           ((* fixstr *)
            if len <? 0x20 then
              CHR (len .| 0xa0)
              ++ bin
            (* str 8 *)
            else if len <? 0x100 then
              [0xd9]
              ++ CHR len
              ++ bin
            (* str 16 *)
            else if len <? 0x10000 then
              [0xda]
              ++ CHR (len >> 8)
              ++ CHR (len & 0xff)
              ++ bin
            (* str 32 *)
            else
              [0xdb]
              ++ CHR (len >> 24 & 0xff)
              ++ CHR (len >> 16 & 0xff)
              ++ CHR (len >> 8 & 0xff)
              ++ CHR (len & 0xff)
              ++ bin),
         st')
    end.

Definition encodeBin (buf : list Z) : binary :=
  let len := Z.of_nat (length buf) in
  if len =? 0 then [0xc4; 0x00]
  else
    let bin :=
      if len <? 7 then concat (map CHR buf)
      else latin1Slice {| buf_length := len; buf_bytes := buf |} len in
    (* bin 8 *)
    if len <? 0x100 then
      [0xc4]
      ++ CHR len
      ++ bin
    (* bin 16 *)
    else if len <? 0x10000 then
      [0xc5]
      ++ CHR (len >> 8)
      ++ CHR (len & 0xff)
      ++ bin
    (* bin 32 *)
    else
      [0xc6]
      ++ CHR (len >> 24 & 0xff)
      ++ CHR (len >> 16 & 0xff)
      ++ CHR (len >> 8 & 0xff)
      ++ CHR (len & 0xff)
      ++ bin.

Definition encodeExt (type : Z) (bin : binary) : binary :=
  let ext := CHR (type & 0x7f) ++ bin in
  let len := Z.of_nat (length bin) in
  (* fixext 1/2/4/8/16 *)
  if len =? 1 then [0xd4] ++ ext
  else if len =? 2 then [0xd5] ++ ext
  else if len =? 4 then [0xd6] ++ ext
  else if len =? 8 then [0xd7] ++ ext
  else if len =? 16 then [0xd8] ++ ext
  (* ext 8 *)
  else if len <? 0x100 then
    [0xc7]
    ++ CHR len
    ++ ext
  (* ext 16 *)
  else if len <? 0x10000 then
    [0xc8]
    ++ CHR (len >> 8)
    ++ CHR (len & 0xff)
    ++ ext
  (* ext 32 *)
  else
    [0xc9]
    ++ CHR (len >> 24 & 0xff)
    ++ CHR (len >> 16 & 0xff)
    ++ CHR (len >> 8 & 0xff)
    ++ CHR (len & 0xff)
    ++ ext.

(** ** Containers and the dispatch *)

(** The tag and count that open a non-empty array ([fix] = 0x90,
    [t16] = 0xdc, [t32] = 0xdd) or map (0x80, 0xde, 0xdf). *)
Definition container_head (fix_tag t16 t32 len : Z) : binary :=
  if len <? 0x10 then
    CHR (fix_tag .| len)
  else if len <? 0x10000 then
    [t16]
    ++ CHR (len >> 8)
    ++ CHR (len & 0xff)
  else
    [t32]
    ++ CHR (len >> 24 & 0xff)
    ++ CHR (len >> 16 & 0xff)
    ++ CHR (len >> 8 & 0xff)
    ++ CHR (len & 0xff).

(** [this.encodeObjectKeys(key)]. *)
Definition encodeObjectKey (e : Encoder) (key : jsstring) : M binary :=
  match encodeObjectKeys e with
  | KeyAscii encodeAscii => ret (encodeAscii key)
  | KeyStr => encodeStr e key
  end.

(** The loop over the codecs: [i] counts down from [codecs.length]. *)
Fixpoint walk_codecs (cs : list Codec) (i : nat) (value : value) : M (option binary) :=
  match i with
  | O => ret None
  | S i' =>
      match nth_error cs i' with
      | None => throw TypeError
      | Some codec =>
          bin <- codec_encode codec value ;;
          match bin with
          | Some b => ret (Some b)
          | None => walk_codecs cs i' value
          end
      end
  end.

(** The body of [encodeArray] and of [encodeObject], over the method
    [encode] they call back. *)
Definition encodeArray_with (encode : value -> M binary) (arr : list value) : M binary :=
  let len := Z.of_nat (length arr) in
  if len =? 0 then ret [0x90]
  else
    (fix loop (rest : list value) (bin : binary) : M binary :=
       match rest with
       | [] => ret bin
       | x :: rest' => b <- encode x ;; loop rest' (bin ++ b)
       end) arr (container_head 0x90 0xdc 0xdd len).

Definition encodeObject_with (e : Encoder) (encode : value -> M binary)
    (obj : list (jsstring * value)) : M binary :=
  let len := Z.of_nat (length obj) in
  if len =? 0 then ret [0x80]
  else
    (fix loop (rest : list (jsstring * value)) (bin : binary) : M binary :=
       match rest with
       | [] => ret bin
       | (key, x) :: rest' =>
           k <- encodeObjectKey e key ;;
           b <- encode x ;;
           loop rest' ((bin ++ k) ++ b)
       end) obj (container_head 0x80 0xde 0xdf len).

Fixpoint encode (d : dist) (e : Encoder) (value : value) {struct value} : M binary :=
  match value with
  | VStr str => encodeStr e str
  | VNum num =>
      (* value % 1 === 0 *)
      match num with
      | NInt z => ret (encodeInt d z)
      | NFrac bits => ret (encodeFloat e bits)
      end
  | VNull => ret [0xc0]
  | VArray arr => encodeArray_with (encode d e) arr
  | VBuffer buf => ret (encodeBin buf)
  | VExt type data => ret (encodeExt type data)
  | VObject obj =>
      match codecs e with
      | Some cs =>
          bin <- walk_codecs cs (length cs) value ;;
          match bin with
          | Some b => ret b
          | None => encodeObject_with e (encode d e) obj
          end
      | None => encodeObject_with e (encode d e) obj
      end
  | VBool b => ret (if b then [0xc3] else [0xc2])
  | VUndefined | VFunction | VSymbol | VBigInt _ => handler e value
  end.

Definition encodeArray (d : dist) (e : Encoder) := encodeArray_with (encode d e).
Definition encodeObject (d : dist) (e : Encoder) := encodeObject_with e (encode d e).

(** ** The constructor *)

Inductive float_option := Float32 | Float64.
Inductive objectKeys_option := Ascii | Utf8.

(** What [Encoder.js] imports from module [./encoders], which is not among
    the sources at hand. *)
Record Imports := {
  selectEncoderFloat : float_option -> Z -> binary;
  encodeAscii : jsstring -> binary
}.

(** [EncodingFailed.withValue(value)]: the error carries the value, and
    its message interpolates the value and its [typeof]. A symbol cannot be
    converted to a string: for one, the template literal throws TypeError
    and no [EncodingFailed] is built. *)
Definition withValue (value : value) : outcome error :=
  match value with
  | VSymbol => Throw TypeError
  | _ => Return (EncodingFailed value (typeof value))
  end.

(** Modelled from the spec: [throwsEncoderHandler] of module [./handlers],
    the default unsupported-value handler, which "signals an EncodingFailed
    error carrying the offending value and its kind": it throws what
    [EncodingFailed.withValue] builds. *)
Definition throwsEncoderHandler (value : value) : M binary :=
  match withValue value with
  | Return failed => throw failed
  | Throw err => throw err
  end.

Record options := {
  opt_float : float_option;
  opt_objectKeys : objectKeys_option;
  opt_bufferMinLen : Z;
  opt_bufferMinAlloc : Z;
  opt_handler : value -> M binary;
  opt_codecs : option (list Codec)
}.

Definition default_options : options :=
  {| opt_float := Float64;
     opt_objectKeys := Ascii;
     opt_bufferMinLen := 15;
     opt_bufferMinAlloc := 2048;
     opt_handler := throwsEncoderHandler;
     opt_codecs := None |}.

Definition new_Encoder (imports : Imports) (o : options) : Encoder :=
  {| handler := opt_handler o;
     encodeFloat := selectEncoderFloat imports (opt_float o);
     encodeObjectKeys :=
       match opt_objectKeys o with
       | Ascii => KeyAscii (encodeAscii imports)
       | Utf8 => KeyStr
       end;
     codecs := opt_codecs o;
     bufferMinLen := opt_bufferMinLen o >>> 0;
     bufferMinAlloc := opt_bufferMinAlloc o >>> 0 |}.

(** The same options with other scratch-buffer settings. *)
Definition with_scratch_settings (minLen minAlloc : Z) (o : options) : options :=
  {| opt_float := opt_float o;
     opt_objectKeys := opt_objectKeys o;
     opt_bufferMinLen := minLen;
     opt_bufferMinAlloc := minAlloc;
     opt_handler := opt_handler o;
     opt_codecs := opt_codecs o |}.

(** The same options with a list of codecs. *)
Definition with_codecs (cs : list Codec) (o : options) : options :=
  {| opt_float := opt_float o;
     opt_objectKeys := opt_objectKeys o;
     opt_bufferMinLen := opt_bufferMinLen o;
     opt_bufferMinAlloc := opt_bufferMinAlloc o;
     opt_handler := opt_handler o;
     opt_codecs := Some cs |}.

(** [UndefinedCodec]: its [encode] returns [null] for every value. *)
Definition UndefinedCodec : Codec :=
  {| codec_type := 0x0a;
     codec_encode := fun _ => ret None |}.

(** ** Reference definitions, in the words of the format *)

(** The [k] low bytes of [z], most significant first; for a negative [z]
    this is its two's-complement form. *)
Fixpoint big_endian (k : nat) (z : Z) : binary :=
  match k with
  | O => []
  | S k' => big_endian k' (z / 256) ++ [z mod 256]
  end.

(** The codec resolution in the words of the spec: the codecs of a list are
    tried in order, "calling [encode] and accepting the first non-null
    result". *)
Fixpoint first_non_null (cs : list Codec) (value : value) : M (option binary) :=
  match cs with
  | [] => ret None
  | codec :: rest =>
      bin <- codec_encode codec value ;;
      match bin with
      | Some b => ret (Some b)
      | None => first_non_null rest value
      end
  end.

(** A codec that claims every value with a fixed answer. *)
Definition constant_codec (type : Z) (answer : binary) : Codec :=
  {| codec_type := type;
     codec_encode := fun _ => ret (Some answer) |}.

(** The integers a double holds exactly, whatever their neighbours. *)
Definition safe_integer (n : Z) : Prop :=
  - (2 ^ 53 - 1) <= n <= 2 ^ 53 - 1.

(** Modelled from the spec: the module [./encoders] as the format table
    describes it: float64 is tag 0xcb and the IEEE-754 bits, big-endian; an
    ASCII key is a str of its characters. The narrowing to float32 is not
    modelled: this instance stands for the default [float = '64']. *)
Definition format_imports : Imports :=
  {| selectEncoderFloat := fun _ bits => [0xcb] ++ big_endian 8 bits;
     encodeAscii := fun key =>
       let len := str_length key in
       (if len <? 0x20 then CHR (len .| 0xa0)
        else if len <? 0x100 then [0xd9] ++ CHR len
        else if len <? 0x10000 then [0xda] ++ CHR (len >> 8) ++ CHR (len & 0xff)
        else [0xdb] ++ CHR (len >> 24 & 0xff) ++ CHR (len >> 16 & 0xff)
             ++ CHR (len >> 8 & 0xff) ++ CHR (len & 0xff))
       ++ key |}.

(** ** Definitions for the scratch-buffer properties *)

(** The str tiers around a payload of bytes. *)
Definition str_form (bin : binary) : binary :=
  let len := Z.of_nat (length bin) in
  if len <? 0x20 then CHR (len .| 0xa0) ++ bin
  else if len <? 0x100 then [0xd9] ++ CHR len ++ bin
  else if len <? 0x10000 then [0xda] ++ CHR (len >> 8) ++ CHR (len & 0xff) ++ bin
  else [0xdb] ++ CHR (len >> 24 & 0xff) ++ CHR (len >> 16 & 0xff)
       ++ CHR (len >> 8 & 0xff) ++ CHR (len & 0xff) ++ bin.

(** The codecs of an encoder ([codecs: false] registers none). *)
Definition registered (e : Encoder) : list Codec :=
  match codecs e with
  | Some cs => cs
  | None => []
  end.

(** A call keeps the capacity when, from a capacity that is a multiple of
    [m], it leaves one that is no smaller and again a multiple of [m]. *)
Definition keeps_capacity {A} (m : Z) (call : M A) : Prop :=
  forall st, (m | bufferAlloc st) ->
    bufferAlloc st <= bufferAlloc (snd (call st)) /\ (m | bufferAlloc (snd (call st))).

(** Every string of the value is shorter than [2^32] code units. *)
Fixpoint strings_bounded (v : value) : bool :=
  match v with
  | VStr s => str_length s <? 2 ^ 32
  | VArray arr => forallb strings_bounded arr
  | VObject obj =>
      forallb (fun p => (str_length (fst p) <? 2 ^ 32) && strings_bounded (snd p)) obj
  | _ => true
  end.

(** The states an encoder goes through: the fresh one, and the one after
    each call of [encode]. *)
Inductive reachable (d : dist) (e : Encoder) : scratch -> Prop :=
| reach_new : reachable d e new_scratch
| reach_encode st v :
    reachable d e st -> strings_bounded v = true ->
    reachable d e (snd (encode d e v st)).

(** ** The remaining methods *)

Definition encodeNil : binary := [0xc0].

Definition encodeBool (b : bool) : binary := if b then [0xc3] else [0xc2].

(** [encodeMap] (only in [dist/v8-6.2]; [encode] does not call it): a [Map]
    is the list of its entries in insertion order, and its keys are values
    like any other. *)
Definition encodeMap (e : Encoder) (map : list (value * value)) : M binary :=
  let size := Z.of_nat (length map) in
  if size =? 0 then ret [0x80]
  else
    (fix loop (rest : list (value * value)) (bin : binary) : M binary :=
       match rest with
       | [] => ret bin
       | (key, x) :: rest' =>
           k <- encode v8_6_2 e key ;;
           b <- encode v8_6_2 e x ;;
           loop rest' ((bin ++ k) ++ b)
       end) map (container_head 0x80 0xde 0xdf size).

(** ** Definitions for the further properties *)

(** A byte. *)
Definition byte (b : Z) : Prop := 0 <= b <= 255.

(** The narrowest integer form of the format for [-2^31 <= n < 2^32]:
    fixint, or a tag and the 1, 2 or 4 bytes of [n]. *)
Definition int_form (n : Z) : binary :=
  if n <? - 32768 then [0xd2] ++ big_endian 4 n
  else if n <? - 128 then [0xd1] ++ big_endian 2 n
  else if n <? - 32 then [0xd0] ++ big_endian 1 n
  else if n <? 128 then big_endian 1 n
  else if n <? 256 then [0xcc] ++ big_endian 1 n
  else if n <? 65536 then [0xcd] ++ big_endian 2 n
  else [0xce] ++ big_endian 4 n.

(** A string of ASCII characters only. *)
Definition ascii (s : jsstring) : Prop := Forall (fun c => 0 <= c < 0x80) s.

(** The scratch fields agree: no buffer and capacity 0, or a buffer of the
    recorded capacity (which an allocation can have made). *)
Definition scratch_wf (st : scratch) : Prop :=
  match buffer st with
  | None => bufferAlloc st = 0
  | Some b => buf_length b = bufferAlloc st /\ 0 <= buf_length b <= kMaxLength
  end.


(** Calls in sequence, collecting the results; the first throw ends them. *)
Fixpoint each {A B} (call : A -> M B) (xs : list A) : M (list B) :=
  match xs with
  | [] => ret []
  | x :: rest =>
      b <- call x ;;
      bs <- each call rest ;;
      ret (b :: bs)
  end.

(** What the codec loop of [encode] yields for an object: [null] when no
    codec list is configured. *)
Definition registry_walk (e : Encoder) (v : value) : M (option binary) :=
  match codecs e with
  | Some cs => walk_codecs cs (length cs) v
  | None => ret None
  end.


(** A string of fewer than [2^20] ASCII characters. *)
Definition is_ascii (s : jsstring) : bool :=
  forallb (fun c => (0 <=? c) && (c <? 0x80)) s && (str_length s <? 2 ^ 20).

(** Every string and every key of the value is one. *)
Fixpoint ascii_only (v : value) : bool :=
  match v with
  | VStr s => is_ascii s
  | VArray arr => forallb ascii_only arr
  | VObject obj => forallb (fun p => is_ascii (fst p) && ascii_only (snd p)) obj
  | _ => true
  end.



(** Two calls agree: the same bytes or the same error, and both leave the
    scratch fields in agreement. *)
Definition agree (r1 r2 : outcome binary * scratch) : Prop :=
  fst r1 = fst r2 /\ scratch_wf (snd r1) /\ scratch_wf (snd r2).

(** Every string and every key of the value is shorter than [limit]. *)
Fixpoint short_strings (limit : Z) (v : value) : bool :=
  match v with
  | VStr s => str_length s <? limit
  | VArray arr => forallb (short_strings limit) arr
  | VObject obj =>
      forallb (fun p => (str_length (fst p) <? limit) && short_strings limit (snd p)) obj
  | _ => true
  end.

(** A call that leaves the encoder as it found it, with a result that does
    not depend on the state. *)
Definition stateless {A} (call : M A) : Prop :=
  exists r, forall st, call st = (r, st).

(** A call that keeps the scratch fields in agreement, unless it throws
    the RangeError of a refused allocation. *)
Definition keeps_wf {A} (call : M A) : Prop :=
  forall st, scratch_wf st ->
    fst (call st) = Throw RangeError \/ scratch_wf (snd (call st)).

(** The same encoder with another codec list. *)
Definition set_codecs (cs : option (list Codec)) (e : Encoder) : Encoder :=
  {| handler := handler e;
     encodeFloat := encodeFloat e;
     encodeObjectKeys := encodeObjectKeys e;
     codecs := cs;
     bufferMinLen := bufferMinLen e;
     bufferMinAlloc := bufferMinAlloc e |}.

(** * Properties *)

(** ** The integer ladder *)

Lemma literal_2_53_plus_1 : JS.literal 0x20000000000001 = 0x20000000000000.
Proof. vm_compute. reflexivity. Qed.

(** C9: the tag tiers meet exactly at 127/128 and at -32/-33:
    [encodeInt(127)] is the byte 7f, [encodeInt(128)] is cc 80,
    [encodeInt(-1)] is ff and [encodeInt(-33)] is d0 df, in both copies. *)
Theorem encodeInt_tier_boundaries (d : dist) :
  encodeInt d 127 = [0x7f]
  /\ encodeInt d 128 = [0xcc; 0x80]
  /\ encodeInt d (-1) = [0xff]
  /\ encodeInt d (-33) = [0xd0; 0xdf].
Proof. destruct d; repeat split; vm_compute; reflexivity. Qed.






(** *** Bytes of the 32-bit operators *)

Lemma to_int32_small (x : Z) :
  - 0x80000000 <= x < 0x80000000 -> JS.to_int32 x = x.
Proof. intros H. unfold JS.to_int32. Z.div_mod_to_equations. lia. Qed.

Lemma shr_div (x k : Z) : 0 <= k < 32 -> x >> k = JS.to_int32 x / 2 ^ k.
Proof.
  intros H. unfold JS.shr, JS.to_uint32.
  rewrite (Z.mod_small k 0x100000000) by lia.
  rewrite (Z.mod_small k 32) by lia.
  apply Z.shiftr_div_pow2. lia.
Qed.

Lemma ushr_div (x k : Z) : 0 <= k < 32 -> x >>> k = (x mod 0x100000000) / 2 ^ k.
Proof.
  intros H. unfold JS.ushr, JS.to_uint32.
  rewrite (Z.mod_small k 0x100000000) by lia.
  rewrite (Z.mod_small k 32) by lia.
  apply Z.shiftr_div_pow2. lia.
Qed.

Lemma and_0xff (a : Z) : a & 0xff = a mod 256.
Proof.
  unfold JS.and. change (JS.to_int32 0xff) with (Z.ones 8).
  rewrite Z.land_ones by lia. change (2 ^ 8) with 256.
  unfold JS.to_int32. Z.div_mod_to_equations. lia.
Qed.

Lemma CHR_byte (b : Z) : 0 <= b <= 255 -> CHR b = [b].
Proof.
  intros [H1 H2]. unfold CHR.
  apply Z.leb_le in H1. apply Z.leb_le in H2. rewrite H1, H2. reflexivity.
Qed.

Lemma CHR_and_0xff (a : Z) : CHR (a & 0xff) = [a mod 256].
Proof. rewrite and_0xff. apply CHR_byte. Z.div_mod_to_equations. lia. Qed.

#[local] Ltac bytes_eq :=
  repeat match goal with
         | |- _ :: _ = _ :: _ => f_equal
         end;
  try reflexivity;
  unfold JS.to_int32; change (2 ^ 8) with 256; change (2 ^ 16) with 65536;
  change (2 ^ 24) with 16777216; Z.div_mod_to_equations; lia.

Lemma encodeInt64_big_endian (hi lo : Z) :
  encodeInt64 hi lo = big_endian 4 hi ++ big_endian 4 lo.
Proof.
  unfold encodeInt64. rewrite !CHR_and_0xff. rewrite !shr_div by lia.
  cbn [big_endian app]. bytes_eq.
Qed.

Lemma big_endian_4_mod (z : Z) : big_endian 4 (z mod 0x100000000) = big_endian 4 z.
Proof. cbn [big_endian app]. bytes_eq. Qed.

Lemma big_endian_8_split (z : Z) :
  big_endian 8 z = big_endian 4 (z / 0x100000000) ++ big_endian 4 z.
Proof. cbn [big_endian app]. bytes_eq. Qed.

Lemma big_endian_4_inj (a b : Z) :
  big_endian 4 a = big_endian 4 b -> a mod 0x100000000 = b mod 0x100000000.
Proof.
  cbn [big_endian app]. intros H. injection H as H1 H2 H3 H4.
  Z.div_mod_to_equations. lia.
Qed.

(** *** The two 64-bit tiers, as the code computes them *)

(** In the int64 tier the high half is the quotient truncated toward zero,
    less one. *)
Lemma encodeInt_int64_tier (d : dist) (n : Z) :
  - (2 ^ 53 - 1) <= n <= - (2 ^ 31 + 1) ->
  encodeInt d n
  = [0xd3] ++ big_endian 4 (Z.quot n 0x100000000 - 1) ++ big_endian 4 n.
Proof.
  intros H. change (2 ^ 53) with 0x20000000000000 in H.
  change (2 ^ 31) with 0x80000000 in H.
  unfold encodeInt. rewrite literal_2_53_plus_1.
  repeat match goal with
         | |- context [if ?c then _ else _] =>
             let E := fresh "E" in destruct c eqn:E; try lia
         end.
  rewrite encodeInt64_big_endian. unfold JS.div_shr0.
  rewrite to_int32_small.
  2:{ pose proof (Z.quot_lt_upper_bound (- n) 0x100000000 0x200000).
      assert (Z.quot n 0x100000000 = - Z.quot (- n) 0x100000000) as ->
        by (rewrite Z.quot_opp_l by lia; lia).
      pose proof (Z.quot_pos (- n) 0x100000000). lia. }
  rewrite ushr_div by lia. change (2 ^ 0) with 1. rewrite Z.div_1_r.
  rewrite big_endian_4_mod. reflexivity.
Qed.

(** Truncated quotient less one is the floor, except on exact multiples. *)
Lemma quot_minus_1_floor (n : Z) :
  n < 0 -> n mod 0x100000000 <> 0 -> Z.quot n 0x100000000 - 1 = n / 0x100000000.
Proof.
  intros Hn Hm.
  assert (Z.quot n 0x100000000 = - ((- n) / 0x100000000)) as ->.
  { rewrite <- (Z.opp_involutive n) at 1. rewrite Z.quot_opp_l by lia.
    rewrite Z.quot_div_nonneg by lia. reflexivity. }
  Z.div_mod_to_equations. lia.
Qed.

(** Off the multiples of [2^32] the int64 tier is exact. *)
Lemma encodeInt_int64_exact (d : dist) (n : Z) :
  - (2 ^ 53 - 1) <= n <= - (2 ^ 31 + 1) ->
  n mod 0x100000000 <> 0 ->
  encodeInt d n = [0xd3] ++ big_endian 8 n.
Proof.
  intros H Hm. rewrite encodeInt_int64_tier by exact H.
  rewrite quot_minus_1_floor by lia. rewrite big_endian_8_split. reflexivity.
Qed.

(** On a multiple of [2^32] it encodes [n - 2^32]. *)
Lemma encodeInt_int64_multiple (d : dist) (n : Z) :
  - (2 ^ 53 - 1) <= n <= - (2 ^ 31 + 1) ->
  n mod 0x100000000 = 0 ->
  encodeInt d n = [0xd3] ++ big_endian 8 (n - 0x100000000)
  /\ encodeInt d n <> [0xd3] ++ big_endian 8 n.
Proof.
  intros H Hm. rewrite encodeInt_int64_tier by exact H.
  assert (Hq : Z.quot n 0x100000000 = n / 0x100000000).
  { rewrite <- (Z.opp_involutive n) at 1. rewrite Z.quot_opp_l by lia.
    rewrite Z.quot_div_nonneg by lia. Z.div_mod_to_equations. lia. }
  rewrite Hq. split.
  - rewrite big_endian_8_split.
    replace ((n - 0x100000000) / 0x100000000) with (n / 0x100000000 - 1)
      by (Z.div_mod_to_equations; lia).
    replace (big_endian 4 (n - 0x100000000)) with (big_endian 4 n).
    + reflexivity.
    + rewrite <- (big_endian_4_mod (n - 0x100000000)), <- (big_endian_4_mod n).
      f_equal. Z.div_mod_to_equations. lia.
  - rewrite big_endian_8_split. intros Heq.
    apply app_inv_head in Heq. apply app_inv_tail in Heq.
    apply big_endian_4_inj in Heq. Z.div_mod_to_equations. lia.
Qed.

(** In the uint64 tier the high half is taken from the low 32 bits. *)
Lemma encodeInt_uint64_tier (d : dist) (n : Z) :
  2 ^ 32 <= n <= 2 ^ 53 - 1 ->
  encodeInt d n
  = [0xcf] ++ big_endian 4 (Z.lor ((n mod 0x100000000) / 2 ^ 11) 1) ++ big_endian 4 n.
Proof.
  intros H. change (2 ^ 53) with 0x20000000000000 in H.
  change (2 ^ 32) with 0x100000000 in H.
  unfold encodeInt.
  repeat match goal with
         | |- context [if ?c then _ else _] =>
             let E := fresh "E" in destruct c eqn:E; try lia
         end.
  rewrite encodeInt64_big_endian. unfold JS.or.
  rewrite ushr_div by lia. rewrite to_int32_small.
  2:{ change (2 ^ 11) with 2048. Z.div_mod_to_equations. lia. }
  reflexivity.
Qed.

(** C1: at [n = -2^32], inside the int64 tier, [encodeInt] returns the
    int64 form of [-2^33]: d3 ff ff ff fe 00 00 00 00, where the exact
    8-byte two's-complement form of [n] is ff ff ff ff 00 00 00 00. The
    high half [(num / 0x100000000 >> 0) - 1] is one too low on every exact
    multiple of [2^32] ([encodeInt_int64_multiple]); off the multiples the
    tier is exact ([encodeInt_int64_exact]). *)
Theorem encodeInt_int64_wrong_on_multiple (d : dist) :
  - (2 ^ 53 - 1) <= - 2 ^ 32 <= - (2 ^ 31 + 1)
  /\ encodeInt d (- 2 ^ 32) = [0xd3; 0xff; 0xff; 0xff; 0xfe; 0x00; 0x00; 0x00; 0x00]
  /\ encodeInt d (- 2 ^ 32) = [0xd3] ++ big_endian 8 (- 2 ^ 33)
  /\ [0xd3] ++ big_endian 8 (- 2 ^ 32)
     = [0xd3; 0xff; 0xff; 0xff; 0xff; 0x00; 0x00; 0x00; 0x00].
Proof. destruct d; (split; [lia | repeat split; vm_compute; reflexivity]). Qed.

(** C2: at [n = 2^33], inside the uint64 tier, [encodeInt] returns the
    uint64 form of [2^32]: cf 00 00 00 01 00 00 00 00, where the exact
    8-byte form of [n] is 00 00 00 02 00 00 00 00. The high half is computed
    as [num >>> 11 | 1], from the low 32 bits of [num]
    ([encodeInt_uint64_tier]), not as [floor(num / 2^32)]. *)
Theorem encodeInt_uint64_wrong_high_half (d : dist) :
  2 ^ 32 <= 2 ^ 33 <= 2 ^ 53 - 1
  /\ encodeInt d (2 ^ 33) = [0xcf; 0x00; 0x00; 0x00; 0x01; 0x00; 0x00; 0x00; 0x00]
  /\ encodeInt d (2 ^ 33) = [0xcf] ++ big_endian 8 (2 ^ 32)
  /\ [0xcf] ++ big_endian 8 (2 ^ 33)
     = [0xcf; 0x00; 0x00; 0x00; 0x02; 0x00; 0x00; 0x00; 0x00].
Proof. destruct d; (split; [lia | repeat split; vm_compute; reflexivity]). Qed.

(** ** Round trip *)

Lemma encode_integer (d : dist) (e : Encoder) (n : Z) (st : scratch) :
  encode d e (VNum (NInt n)) st = (Return (encodeInt d n), st).
Proof. reflexivity. Qed.

(** C4: no decoder makes [decode(encode(v)) = v] hold on the safe integers:
    [encode] maps [2^32] and [2^33] to the same nine bytes (the uint64 defect
    of C2), so whatever a decoder returns for them, one of the two integers
    does not come back. *)
Theorem no_decoder_round_trips_safe_integers
    (d : dist) (e : Encoder) (st : scratch) (decode : binary -> option value) :
  exists (n : Z) (bytes : binary),
    safe_integer n
    /\ fst (encode d e (VNum (NInt n)) st) = Return bytes
    /\ decode bytes <> Some (VNum (NInt n)).
Proof.
  assert (Hsame : encodeInt d (2 ^ 32) = encodeInt d (2 ^ 33))
    by (destruct d; vm_compute; reflexivity).
  destruct (decode (encodeInt d (2 ^ 32))) as [v|] eqn:Hdec.
  - assert (Hcases : v = VNum (NInt (2 ^ 32)) \/ v <> VNum (NInt (2 ^ 32))).
    { destruct v as [ | | | | | [z|] | | | | | | ];
        try (right; discriminate).
      destruct (Z.eq_dec z (2 ^ 32)) as [-> | Hz].
      - left. reflexivity.
      - right. intros Heq. injection Heq as Heq. contradiction. }
    destruct Hcases as [-> | Hv].
    + exists (2 ^ 33), (encodeInt d (2 ^ 33)).
      rewrite encode_integer. repeat split.
      * unfold safe_integer. lia.
      * unfold safe_integer. lia.
      * rewrite <- Hsame, Hdec. intros Heq. injection Heq as Heq. lia.
    + exists (2 ^ 32), (encodeInt d (2 ^ 32)).
      rewrite encode_integer. repeat split.
      * unfold safe_integer. lia.
      * unfold safe_integer. lia.
      * rewrite Hdec. intros Heq. injection Heq as Heq. contradiction.
  - exists (2 ^ 32), (encodeInt d (2 ^ 32)).
    rewrite encode_integer. repeat split.
    + unfold safe_integer. lia.
    + unfold safe_integer. lia.
    + rewrite Hdec. discriminate.
Qed.

(** ** The scratch buffer of [encodeStr] *)

Lemma encode_string (d : dist) (e : Encoder) (str : jsstring) :
  encode d e (VStr str) = encodeStr e str.
Proof. reflexivity. Qed.

(** The capacity field after a call of [encodeStr]. *)
Lemma encodeStr_bufferAlloc (e : Encoder) (str : jsstring) (st : scratch) :
  bufferAlloc (snd (encodeStr e str st))
  = let len := str_length str in
    if (len =? 0) || (len <? bufferMinLen e) then bufferAlloc st
    else if len >? bufferAlloc st
         then bufferMinAlloc e * (len >>> 10 .| 2)
         else bufferAlloc st.
Proof.
  unfold encodeStr. cbv zeta.
  destruct (str_length str =? 0); [reflexivity|].
  destruct (str_length str <? bufferMinLen e); [reflexivity|].
  cbn [orb].
  assert (Hgrow : bufferAlloc (snd (grow e (str_length str) st))
                  = if str_length str >? bufferAlloc st
                    then bufferMinAlloc e * (str_length str >>> 10 .| 2)
                    else bufferAlloc st).
  { unfold grow. destruct (str_length str >? bufferAlloc st); [|reflexivity].
    destruct (alloc _); reflexivity. }
  rewrite <- Hgrow.
  destruct (grow e (str_length str) st) as [[[]|err] st1]; [|reflexivity].
  cbn [snd]. destruct (buffer st1) as [b|]; [|reflexivity].
  destruct (utf8Write b str). reflexivity.
Qed.

Lemma or_2_of_kib (len : Z) :
  0 <= len < 2 ^ 32 -> len >>> 10 .| 2 = Z.lor (len / 1024) 2.
Proof.
  intros H. change (2 ^ 32) with 0x100000000 in H.
  unfold JS.or. rewrite ushr_div by lia.
  rewrite Z.mod_small by lia. change (2 ^ 10) with 1024.
  rewrite to_int32_small by (Z.div_mod_to_equations; lia).
  reflexivity.
Qed.

(** C5, as the claim has it, fails: a first string of 1024 characters on a
    default encoder takes the scratch path and exceeds the capacity 0, and
    the new capacity is 2048 * 3 = 6144, where
    2048 * max(2, ceil(1024 / 1024)) is 4096. *)
Lemma encodeStr_growth_is_not_max_ceil :
  let e := new_Encoder format_imports default_options in
  let str := repeat 97 1024 in
  bufferMinLen e <= str_length str
  /\ bufferAlloc new_scratch < str_length str
  /\ bufferAlloc (snd (encodeStr e str new_scratch)) = 6144
  /\ bufferAlloc (snd (encodeStr e str new_scratch))
     <> bufferMinAlloc e * Z.max 2 ((str_length str + 1023) / 1024).
Proof. vm_compute. repeat split; reflexivity || discriminate. Qed.

(** C5, amended: whenever [encodeStr] takes the scratch-buffer path (a
    non-empty string of length at or above [bufferMinLen]) and the length
    exceeds the current capacity, the new capacity is [bufferMinAlloc]
    multiplied by [(length >>> 10) | 2], that is floor(length / 1024) with
    bit 1 set (for every length a string can have, below 2^32). *)
Theorem encodeStr_growth (e : Encoder) (str : jsstring) (st : scratch) :
  0 < str_length str < 2 ^ 32 ->
  bufferMinLen e <= str_length str ->
  bufferAlloc st < str_length str ->
  bufferAlloc (snd (encodeStr e str st))
  = bufferMinAlloc e * Z.lor (str_length str / 1024) 2.
Proof.
  intros Hlen Hmin Hcap. rewrite encodeStr_bufferAlloc. cbv zeta.
  destruct (Z.eqb_spec (str_length str) 0); [lia|].
  destruct (Z.ltb_spec (str_length str) (bufferMinLen e)); [lia|].
  cbn [orb].
  destruct (Z.gtb_spec (str_length str) (bufferAlloc st)); [|lia].
  rewrite or_2_of_kib by lia. reflexivity.
Qed.

Lemma encodeStr_growth_witness :
  bufferAlloc
    (snd (encodeStr (new_Encoder format_imports default_options)
            (repeat 97 1024) new_scratch))
  = 2048 * Z.lor 1 2.
Proof.
  apply (encodeStr_growth (new_Encoder format_imports default_options)
           (repeat 97 1024) new_scratch).
  - vm_compute. split; reflexivity.
  - vm_compute. discriminate.
  - vm_compute. reflexivity.
Defined.

(** *** Output and capacity *)

Lemma fitting_all (chars : list binary) (room : Z) :
  Z.of_nat (length (concat chars)) <= room -> fitting room chars = concat chars.
Proof.
  revert room. induction chars as [|c rest IH]; intros room H; [reflexivity|].
  cbn [fitting concat] in *. rewrite length_app, Nat2Z.inj_add in H.
  destruct (Z.leb_spec (Z.of_nat (length c)) room); [|lia].
  rewrite IH by lia. reflexivity.
Qed.

(** Below [bufferMinLen] the string is encoded whole. *)
Lemma encodeStr_inline (e : Encoder) (str : jsstring) (st : scratch) :
  0 < str_length str < bufferMinLen e ->
  encodeStr e str st = (Return (str_form (utf8toBin str)), st).
Proof.
  intros H. unfold encodeStr. cbv zeta.
  destruct (Z.eqb_spec (str_length str) 0); [lia|].
  destruct (Z.ltb_spec (str_length str) (bufferMinLen e)); [|lia].
  reflexivity.
Qed.

(** On the scratch path, after a growth that the allocation accepts and
    that leaves room for all the bytes, it is encoded whole too, in the
    UTF-8 form [utf8Write] gives. *)
Lemma encodeStr_scratch_whole (e : Encoder) (str : jsstring) (st : scratch) :
  0 < str_length str ->
  bufferMinLen e <= str_length str ->
  bufferAlloc st < str_length str ->
  bufferMinAlloc e * (str_length str >>> 10 .| 2) <= kMaxLength ->
  Z.of_nat (length (concat (utf8_chars str)))
  <= bufferMinAlloc e * (str_length str >>> 10 .| 2) ->
  fst (encodeStr e str st) = Return (str_form (concat (utf8_chars str))).
Proof.
  intros Hlen Hmin Hcap Hmax Hroom. unfold encodeStr. cbv zeta.
  destruct (Z.eqb_spec (str_length str) 0); [lia|].
  destruct (Z.ltb_spec (str_length str) (bufferMinLen e)); [lia|].
  unfold grow.
  destruct (Z.gtb_spec (str_length str) (bufferAlloc st)); [|lia].
  unfold alloc.
  destruct (Z.leb_spec 0 (bufferMinAlloc e * (str_length str >>> 10 .| 2))); [|lia].
  destruct (Z.leb_spec (bufferMinAlloc e * (str_length str >>> 10 .| 2)) kMaxLength);
    [|lia].
  cbn [andb buffer bufferAlloc]. unfold utf8Write. cbn [buf_length buf_bytes].
  rewrite fitting_all by exact Hroom.
  cbn [fst]. unfold latin1Slice. cbn [buf_bytes]. rewrite Nat2Z.id.
  rewrite firstn_app, firstn_all, Nat.sub_diag, firstn_0, app_nil_r.
  reflexivity.
Qed.

(** The two UTF-8 forms are the same for a string without surrogates. *)
Lemma utf8_forms_agree (str : jsstring) :
  Forall (fun c => is_high_surrogate c = false /\ is_low_surrogate c = false) str ->
  concat (utf8_chars str) = utf8toBin str.
Proof.
  unfold utf8toBin. induction 1 as [|c rest [Hh Hl] Hrest IH]; [reflexivity|].
  cbn [utf8_chars map concat]. rewrite Hh, Hl. cbn [concat]. rewrite IH. reflexivity.
Qed.

(** For a surrogate pair they differ: [utf8toBin] gives two 3-byte
    sequences, [utf8Write] one 4-byte character. *)
Lemma utf8_forms_differ_on_pair :
  utf8toBin [0xd83d; 0xde00] = [0xed; 0xa0; 0xbd; 0xed; 0xb8; 0x80]
  /\ concat (utf8_chars [0xd83d; 0xde00]) = [0xf0; 0x9f; 0x98; 0x80].
Proof. split; reflexivity. Qed.

(** C6: the bytes [encodeStr] returns depend on the scratch-buffer
    settings. For a string of 2048 euro signs (U+20AC, three bytes each) a
    default encoder allocates 2048 * 2 = 4096 bytes, writes the 1365
    characters that fit and returns a str16 of 4095 bytes; an encoder that
    differs only in [bufferMinLen = 3000] returns the whole string, a str16
    of 6144 bytes. The capacity is sized from the number of UTF-16 code
    units, not from the number of bytes to write. *)
Theorem encodeStr_output_depends_on_scratch_settings :
  let str := repeat 0x20ac 2048 in
  let a := new_Encoder format_imports default_options in
  let b := new_Encoder format_imports (with_scratch_settings 3000 2048 default_options) in
  fst (encodeStr a str new_scratch)
  = Return ([0xda; 0x0f; 0xff] ++ concat (repeat [0xe2; 0x82; 0xac] 1365))
  /\ fst (encodeStr b str new_scratch)
     = Return ([0xda; 0x18; 0x00] ++ concat (repeat [0xe2; 0x82; 0xac] 2048))
  /\ fst (encodeStr a str new_scratch) <> fst (encodeStr b str new_scratch).
Proof.
  cbv zeta.
  assert (Ha : fst (encodeStr (new_Encoder format_imports default_options)
                      (repeat 0x20ac 2048) new_scratch)
               = Return ([0xda; 0x0f; 0xff] ++ concat (repeat [0xe2; 0x82; 0xac] 1365)))
    by (vm_compute; reflexivity).
  assert (Hb : fst (encodeStr (new_Encoder format_imports
                                 (with_scratch_settings 3000 2048 default_options))
                      (repeat 0x20ac 2048) new_scratch)
               = Return ([0xda; 0x18; 0x00] ++ concat (repeat [0xe2; 0x82; 0xac] 2048)))
    by (vm_compute; reflexivity).
  rewrite Ha, Hb. repeat split. intros Heq.
  apply (f_equal (fun o => match o with Return l => nth 1 l 0 | Throw _ => 0 end)) in Heq.
  vm_compute in Heq. discriminate.
Qed.

(** With [bufferMinAlloc = 0] nothing fits: every string of 15 characters or
    more comes out as the empty fixstr. *)
Lemma encodeStr_with_zero_min_alloc :
  let str := repeat 97 15 in
  let a := new_Encoder format_imports default_options in
  let z := new_Encoder format_imports (with_scratch_settings 15 0 default_options) in
  fst (encodeStr a str new_scratch) = Return ([0xaf] ++ str)
  /\ fst (encodeStr z str new_scratch) = Return [0xa0].
Proof. split; vm_compute; reflexivity. Qed.

(** C7, as the claim has it, fails: with [bufferMinAlloc = 1] a string of
    3072 characters sets the capacity to 3, and a following string of 15
    characters sets it to 2. *)
Lemma capacity_shrinks_with_small_min_alloc :
  let e := new_Encoder format_imports (with_scratch_settings 15 1 default_options) in
  let st1 := snd (encode v8_6_2 e (VStr (repeat 97 3072)) new_scratch) in
  let st2 := snd (encode v8_6_2 e (VStr (repeat 97 15)) st1) in
  bufferAlloc st1 = 3 /\ bufferAlloc st2 = 2 /\ ~ bufferAlloc st1 <= bufferAlloc st2.
Proof.
  cbv zeta. cbn [encode]. rewrite !encodeStr_bufferAlloc.
  vm_compute. repeat split; reflexivity || (intros H; apply H; reflexivity).
Qed.

(** *** The capacity over the life of an encoder *)

Lemma land_2_bounds (k : Z) : 0 <= k -> 0 <= Z.land k 2 <= 2.
Proof.
  intros H. split; [apply Z.land_nonneg; lia|].
  destruct k as [|p|p]; [cbn; lia| |lia].
  destruct p as [[q|q|]|[q|q|]|]; cbn; lia.
Qed.

Lemma lor_2_lower (k : Z) : 0 <= k -> k <= Z.lor k 2.
Proof.
  intros H. pose proof (Z.add_lor_land k 2). pose proof (land_2_bounds k H). lia.
Qed.

Section Capacity.

Variable m : Z.

Lemma keeps_ret {A} (a : A) : keeps_capacity m (ret a).
Proof. intros st H. cbn. split; [lia | exact H]. Qed.

Lemma keeps_throw {A} (err : error) : keeps_capacity m (@throw A err).
Proof. intros st H. cbn. split; [lia | exact H]. Qed.

Lemma keeps_bind {A B} (c : M A) (k : A -> M B) :
  keeps_capacity m c -> (forall a, keeps_capacity m (k a)) ->
  keeps_capacity m (bind c k).
Proof.
  intros Hc Hk st H. unfold bind. specialize (Hc st H).
  destruct (c st) as [[a|err] st']; cbn [snd] in *.
  - destruct Hc as [Hle Hdiv]. specialize (Hk a st' Hdiv). split; [lia | tauto].
  - exact Hc.
Qed.

Lemma keeps_walk_codecs (cs : list Codec) (v : value) (i : nat) :
  Forall (fun c => forall v, keeps_capacity m (codec_encode c v)) cs ->
  keeps_capacity m (walk_codecs cs i v).
Proof.
  intros Hcs. induction i as [|i IH]; cbn [walk_codecs].
  - apply keeps_ret.
  - destruct (nth_error cs i) as [c|] eqn:Hnth; [|apply keeps_throw].
    apply keeps_bind.
    + rewrite Forall_forall in Hcs. apply Hcs. eapply nth_error_In. exact Hnth.
    + intros [b|]; [apply keeps_ret | exact IH].
Qed.

Lemma keeps_encodeArray_with (enc : value -> M binary) (arr : list value) :
  Forall (fun x => keeps_capacity m (enc x)) arr ->
  keeps_capacity m (encodeArray_with enc arr).
Proof.
  intros Harr. unfold encodeArray_with.
  destruct (Z.of_nat (length arr) =? 0); [apply keeps_ret|].
  generalize (container_head 0x90 0xdc 0xdd (Z.of_nat (length arr))).
  induction Harr as [|x rest Hx Hrest IH]; intros bin.
  - apply keeps_ret.
  - apply keeps_bind; [exact Hx|]. intros b. apply IH.
Qed.

Lemma keeps_encodeObject_with (e : Encoder) (enc : value -> M binary)
    (obj : list (jsstring * value)) :
  Forall (fun p => keeps_capacity m (encodeObjectKey e (fst p))
                   /\ keeps_capacity m (enc (snd p))) obj ->
  keeps_capacity m (encodeObject_with e enc obj).
Proof.
  intros Hobj. unfold encodeObject_with.
  destruct (Z.of_nat (length obj) =? 0); [apply keeps_ret|].
  generalize (container_head 0x80 0xde 0xdf (Z.of_nat (length obj))).
  induction Hobj as [|[key x] rest [Hk Hx] Hrest IH]; intros bin.
  - apply keeps_ret.
  - apply keeps_bind; [exact Hk|]. intros k.
    apply keeps_bind; [exact Hx|]. intros b. apply IH.
Qed.

End Capacity.

(** With a minimum allocation of a kibibyte or more, [encodeStr] keeps the
    capacity. *)
Lemma keeps_encodeStr (e : Encoder) (str : jsstring) :
  1024 <= bufferMinAlloc e -> str_length str < 2 ^ 32 ->
  keeps_capacity (bufferMinAlloc e) (encodeStr e str).
Proof.
  intros Hm Hlen st Hdiv. rewrite encodeStr_bufferAlloc. cbv zeta.
  destruct ((str_length str =? 0) || (str_length str <? bufferMinLen e));
    [split; [lia | exact Hdiv]|].
  destruct (Z.gtb_spec (str_length str) (bufferAlloc st)) as [Hgt|Hle];
    [|split; [lia | exact Hdiv]].
  assert (Hpos : 0 <= str_length str) by (unfold str_length; lia).
  rewrite or_2_of_kib by lia.
  split; [|apply Z.divide_factor_l].
  destruct Hdiv as [j Hj]. rewrite Hj in *.
  pose proof (lor_2_lower (str_length str / 1024)
                ltac:(apply Z.div_pos; lia)) as Hlor.
  assert (Hk : 0 <= str_length str / 1024) by (apply Z.div_pos; lia).
  destruct (Z.le_gt_cases j 0) as [Hj0|Hj0]; [nia|].
  assert (Hjk : j <= str_length str / 1024).
  { apply Z.div_le_lower_bound; [lia|]. nia. }
  nia.
Qed.

Lemma keeps_encodeObjectKey (e : Encoder) (key : jsstring) :
  1024 <= bufferMinAlloc e -> str_length key < 2 ^ 32 ->
  keeps_capacity (bufferMinAlloc e) (encodeObjectKey e key).
Proof.
  intros Hm Hlen. unfold encodeObjectKey.
  destruct (encodeObjectKeys e); [apply keeps_ret | apply keeps_encodeStr; assumption].
Qed.

(** Every call of [encode] keeps the capacity, when the handler and the
    codecs do. *)
Lemma keeps_encode (d : dist) (e : Encoder) :
  1024 <= bufferMinAlloc e ->
  (forall v, keeps_capacity (bufferMinAlloc e) (handler e v)) ->
  Forall (fun c => forall v, keeps_capacity (bufferMinAlloc e) (codec_encode c v))
    (registered e) ->
  forall v, strings_bounded v = true ->
    keeps_capacity (bufferMinAlloc e) (encode d e v).
Proof.
  intros Hm Hhandler Hcodecs v.
  induction v as [ | | | z | s | n | b | | arr IH | buf | type data | obj IH ];
    intros Hb; cbn [encode]; try apply Hhandler; try apply keeps_ret.
  - apply keeps_encodeStr; [exact Hm|]. cbn in Hb. lia.
  - destruct n; apply keeps_ret.
  - apply keeps_encodeArray_with. cbn [strings_bounded] in Hb.
    induction IH as [|x Hx rest Hrest IHrest]; [constructor|].
    cbn [forallb] in Hb. apply andb_true_iff in Hb as [Hb1 Hb2].
    constructor; [apply Hx; exact Hb1 | apply IHrest; exact Hb2].
  - assert (Hobj : keeps_capacity (bufferMinAlloc e)
                     (encodeObject_with e (encode d e) obj)).
    { apply keeps_encodeObject_with. cbn [strings_bounded] in Hb.
      induction IH as [|p Hp rest Hrest IHrest]; [constructor|].
      cbn [forallb] in Hb. apply andb_true_iff in Hb as [Hb1 Hb2].
      apply andb_true_iff in Hb1 as [Hk Hx].
      constructor; [|apply IHrest; exact Hb2].
      destruct Hp as [key _ x Hx']. cbn [fst snd] in *. split.
      - apply keeps_encodeObjectKey; [exact Hm | lia].
      - apply Hx'. exact Hx. }
    unfold registered in Hcodecs. destruct (codecs e) as [cs|]; [|exact Hobj].
    apply keeps_bind.
    + apply keeps_walk_codecs. exact Hcodecs.
    + intros [bin|]; [apply keeps_ret | exact Hobj].
Qed.

(** C7, amended: on an encoder whose [bufferMinAlloc] is at least 1024 (the
    default is 2048) and whose handler and codecs keep the capacity, through
    every finite sequence of [encode] calls (on values whose strings are
    shorter than 2^32 code units) the capacity after a call is greater than
    or equal to the capacity before it. *)
Theorem capacity_never_shrinks (d : dist) (e : Encoder) :
  1024 <= bufferMinAlloc e ->
  (forall v, keeps_capacity (bufferMinAlloc e) (handler e v)) ->
  Forall (fun c => forall v, keeps_capacity (bufferMinAlloc e) (codec_encode c v))
    (registered e) ->
  forall st v, reachable d e st -> strings_bounded v = true ->
    bufferAlloc st <= bufferAlloc (snd (encode d e v st)).
Proof.
  intros Hm Hhandler Hcodecs.
  assert (Hinv : forall st, reachable d e st -> (bufferMinAlloc e | bufferAlloc st)).
  { intros st Hst. induction Hst as [|st v Hst IH Hb].
    - cbn. apply Z.divide_0_r.
    - apply (keeps_encode d e Hm Hhandler Hcodecs v Hb st IH). }
  intros st v Hst Hb.
  apply (keeps_encode d e Hm Hhandler Hcodecs v Hb st (Hinv st Hst)).
Qed.

(** The default handler throws and leaves the encoder as it is. *)
Lemma throwsEncoderHandler_throws (v : value) (st : scratch) :
  exists err, throwsEncoderHandler v st = (Throw err, st).
Proof. destruct v; eexists; reflexivity. Qed.

Lemma capacity_never_shrinks_witness :
  let e := new_Encoder format_imports default_options in
  let st := snd (encode v8v62_cjs e (VStr (repeat 97 3072)) new_scratch) in
  bufferAlloc st <= bufferAlloc (snd (encode v8v62_cjs e (VStr (repeat 97 15)) st)).
Proof.
  cbv zeta.
  apply (capacity_never_shrinks v8v62_cjs (new_Encoder format_imports default_options)).
  - vm_compute. discriminate.
  - intros v st H. cbn [new_Encoder handler default_options opt_handler].
    destruct (throwsEncoderHandler_throws v st) as [err ->]. cbn. split; [lia | exact H].
  - cbn. constructor.
  - apply reach_encode; [apply reach_new | reflexivity].
  - reflexivity.
Defined.

(** ** The codec walk *)

Lemma walk_codecs_newest_first (cs : list Codec) (v : value) (i : nat) (st : scratch) :
  (i <= length cs)%nat ->
  walk_codecs cs i v st = first_non_null (rev (firstn i cs)) v st.
Proof.
  revert st. induction i as [|i IH]; intros st Hi; [reflexivity|].
  cbn [walk_codecs].
  destruct (nth_error cs i) as [c|] eqn:Hnth.
  2:{ apply nth_error_None in Hnth. lia. }
  assert (Hfirst : firstn (S i) cs = firstn i cs ++ [c]).
  { clear IH Hi. revert i Hnth. induction cs as [|x cs IHcs]; intros [|i] Hnth;
      cbn in Hnth; try discriminate.
    - injection Hnth as ->. reflexivity.
    - cbn [firstn app]. f_equal. apply IHcs. exact Hnth. }
  rewrite Hfirst, rev_app_distr. cbn [rev app first_non_null].
  unfold bind. destruct (codec_encode c v st) as [[[b|]|err] st']; try reflexivity.
  apply IH. lia.
Qed.


(** Without a codec list ([codecs: false]) a plain object is encoded as a
    map. *)
Lemma encode_object_without_codecs (d : dist) (e : Encoder)
    (obj : list (jsstring * value)) :
  codecs e = None -> encode d e (VObject obj) = encodeObject d e obj.
Proof. intros Hcs. cbn [encode]. rewrite Hcs. reflexivity. Qed.

(** ** Unsupported values *)

(** For a value whose [typeof] is neither string, number, boolean nor
    object, [encode] is the unsupported-value handler applied to the value,
    whatever codecs are registered. *)
Lemma encode_unsupported_is_handler (d : dist) (e : Encoder) (v : value) (st : scratch) :
  typeof v <> Str -> typeof v <> Num -> typeof v <> Bool -> typeof v <> Obj ->
  encode d e v st = handler e v st
  /\ (forall e', handler e' = handler e -> encode d e' v st = encode d e v st).
Proof.
  intros Hs Hn Hb Ho.
  assert (H : forall e0, encode d e0 v st = handler e0 v st).
  { intros e0. destruct v; cbn in *; try reflexivity; congruence. }
  split; [apply H|]. intros e' He'. rewrite !H, He'. reflexivity.
Qed.

(** C10: for a symbol the default handler does not raise [EncodingFailed]:
    on an encoder with the default options and any list of codecs,
    [encode(Symbol())] throws the TypeError of the message template in
    [EncodingFailed.withValue]. For [undefined], a function and a bigint it
    throws [EncodingFailed] carrying the value and its [typeof], as the
    claim says; in all four cases no codec is consulted and the encoder is
    left as it was. *)
Theorem encode_symbol_throws_TypeError (d : dist) (imports : Imports)
    (cs : list Codec) (st : scratch) :
  let e := new_Encoder imports (with_codecs cs default_options) in
  encode d e VSymbol st = (Throw TypeError, st)
  /\ encode d e VUndefined st = (Throw (EncodingFailed VUndefined Undefined), st)
  /\ encode d e VFunction st = (Throw (EncodingFailed VFunction Function), st)
  /\ forall z, encode d e (VBigInt z) st = (Throw (EncodingFailed (VBigInt z) BigInt), st).
Proof. cbv zeta. repeat split. Qed.

(** * Further properties *)

(** ** Integers up to 32 bits *)

Lemma big_endian_length (k : nat) (z : Z) : length (big_endian k z) = k.
Proof.
  revert z. induction k as [|k IH]; intros z; [reflexivity|].
  cbn [big_endian]. rewrite length_app, IH. cbn. lia.
Qed.

Lemma big_endian_bytes (k : nat) (z : Z) : Forall byte (big_endian k z).
Proof.
  revert z. induction k as [|k IH]; intros z; [constructor|].
  cbn [big_endian]. apply Forall_app. split; [apply IH|].
  constructor; [|constructor]. unfold byte. Z.div_mod_to_equations. lia.
Qed.

Lemma encodeInt_form (d : dist) (n : Z) :
  - 2 ^ 31 <= n < 2 ^ 32 -> encodeInt d n = int_form n.
Proof.
  intros H. change (2 ^ 31) with 0x80000000 in H. change (2 ^ 32) with 0x100000000 in H.
  unfold encodeInt, int_form.
  repeat match goal with
         | |- context [if ?c then _ else _] =>
             let E := fresh "E" in destruct c eqn:E; try lia
         end;
    rewrite ?CHR_and_0xff; rewrite ?shr_div by lia; cbn [big_endian app].
  all: try (rewrite !CHR_byte
              by (unfold JS.to_int32; change (2 ^ 8) with 256;
                  Z.div_mod_to_equations; lia)).
  all: cbn [app]; bytes_eq.
Qed.

(** X1: the negative ladder is exact. [encodeInt] returns the single byte
    [256 + n] for [-32 <= n < 0], d0 and that byte for [-128 <= n < -32], d1
    and the two big-endian bytes of [n] down to [-32768], d2 and its four
    bytes down to [-2^31]. *)
Theorem encodeInt_negative_ladder (d : dist) (n : Z) :
  (- 32 <= n < 0 -> encodeInt d n = [256 + n])
  /\ (- 128 <= n < - 32 -> encodeInt d n = [0xd0; 256 + n])
  /\ (- 32768 <= n < - 128 -> encodeInt d n = [0xd1] ++ big_endian 2 n)
  /\ (- 2 ^ 31 <= n < - 32768 -> encodeInt d n = [0xd2] ++ big_endian 4 n).
Proof.
  repeat split; intros H; rewrite encodeInt_form by lia; unfold int_form;
    repeat match goal with
           | |- context [if ?c then _ else _] =>
               let E := fresh "E" in destruct c eqn:E; try lia
           end;
    try reflexivity; cbn [big_endian app]; bytes_eq.
Qed.

Lemma encodeInt_negative_ladder_witness :
  encodeInt v8_6_2 (- 32) = [0xe0]
  /\ encodeInt v8_6_2 (- 128) = [0xd0; 0x80]
  /\ encodeInt v8_6_2 (- 32768) = [0xd1] ++ big_endian 2 (- 32768)
  /\ encodeInt v8_6_2 (- 2 ^ 31) = [0xd2] ++ big_endian 4 (- 2 ^ 31).
Proof.
  split; [|split; [|split]].
  - apply (proj1 (encodeInt_negative_ladder v8_6_2 (- 32))). lia.
  - apply (proj1 (proj2 (encodeInt_negative_ladder v8_6_2 (- 128)))). lia.
  - apply (proj1 (proj2 (proj2 (encodeInt_negative_ladder v8_6_2 (- 32768))))). lia.
  - apply (proj2 (proj2 (proj2 (encodeInt_negative_ladder v8_6_2 (- 2 ^ 31))))). lia.
Defined.

(** X2: the non-negative ladder is exact. [encodeInt] returns the single
    byte [n] for [0 <= n < 128], cc and [n] below 256, cd and the two
    big-endian bytes of [n] below 65536, ce and its four bytes below
    [2^32]. *)
Theorem encodeInt_unsigned_ladder (d : dist) (n : Z) :
  (0 <= n < 128 -> encodeInt d n = [n])
  /\ (128 <= n < 256 -> encodeInt d n = [0xcc; n])
  /\ (256 <= n < 65536 -> encodeInt d n = [0xcd] ++ big_endian 2 n)
  /\ (65536 <= n < 2 ^ 32 -> encodeInt d n = [0xce] ++ big_endian 4 n).
Proof.
  repeat split; intros H; rewrite encodeInt_form by lia; unfold int_form;
    repeat match goal with
           | |- context [if ?c then _ else _] =>
               let E := fresh "E" in destruct c eqn:E; try lia
           end;
    try reflexivity; cbn [big_endian app]; bytes_eq.
Qed.

Lemma encodeInt_unsigned_ladder_witness :
  encodeInt v8v62_cjs 0 = [0x00]
  /\ encodeInt v8v62_cjs 255 = [0xcc; 0xff]
  /\ encodeInt v8v62_cjs 65535 = [0xcd] ++ big_endian 2 65535
  /\ encodeInt v8v62_cjs (2 ^ 32 - 1) = [0xce] ++ big_endian 4 (2 ^ 32 - 1).
Proof.
  split; [|split; [|split]].
  - apply (proj1 (encodeInt_unsigned_ladder v8v62_cjs 0)). lia.
  - apply (proj1 (proj2 (encodeInt_unsigned_ladder v8v62_cjs 255))). lia.
  - apply (proj1 (proj2 (proj2 (encodeInt_unsigned_ladder v8v62_cjs 65535)))). lia.
  - apply (proj2 (proj2 (proj2 (encodeInt_unsigned_ladder v8v62_cjs (2 ^ 32 - 1))))). lia.
Defined.

Lemma int_form_injective (a b : Z) :
  - 2 ^ 31 <= a < 2 ^ 32 -> - 2 ^ 31 <= b < 2 ^ 32 ->
  int_form a = int_form b -> a = b.
Proof.
  intros Ha Hb. change (2 ^ 31) with 0x80000000 in *.
  change (2 ^ 32) with 0x100000000 in *.
  unfold int_form.
  repeat match goal with
         | |- context [if ?c then _ else _] => destruct c eqn:?
         end;
    cbn [big_endian app]; intros H; try discriminate H;
    injection H; intros; Z.div_mod_to_equations; lia.
Qed.

(** X3: [encodeInt] is injective on [-2^31 <= n < 2^32]: two different
    integers of that range never get the same bytes. *)
Theorem encodeInt_injective_32 (d : dist) (a b : Z) :
  - 2 ^ 31 <= a < 2 ^ 32 -> - 2 ^ 31 <= b < 2 ^ 32 ->
  encodeInt d a = encodeInt d b -> a = b.
Proof.
  intros Ha Hb. rewrite !encodeInt_form by assumption.
  apply int_form_injective; assumption.
Qed.

Lemma encodeInt_injective_32_witness : 0x7f = 0x7f.
Proof.
  apply (encodeInt_injective_32 v8_6_2 0x7f 0x7f); [lia | lia | reflexivity].
Defined.

(** ** The 64-bit tiers *)

(** X4: in the int64 tier, [-(2^53 - 1) <= n <= -(2^31 + 1)], the result is
    d3 and the exact eight bytes of [n] if and only if [n] is not a multiple
    of [2^32]. *)
Theorem encodeInt_int64_exact_iff (d : dist) (n : Z) :
  - (2 ^ 53 - 1) <= n <= - (2 ^ 31 + 1) ->
  (encodeInt d n = [0xd3] ++ big_endian 8 n <-> n mod 2 ^ 32 <> 0).
Proof.
  intros H. change (2 ^ 32) with 0x100000000. split.
  - intros Heq Hm. apply (proj2 (encodeInt_int64_multiple d n H Hm)). exact Heq.
  - intros Hm. apply encodeInt_int64_exact; assumption.
Qed.

Lemma encodeInt_int64_exact_iff_witness :
  encodeInt v8_6_2 (- 2 ^ 31 - 1) = [0xd3] ++ big_endian 8 (- 2 ^ 31 - 1).
Proof.
  apply (encodeInt_int64_exact_iff v8_6_2 (- 2 ^ 31 - 1)).
  - lia.
  - vm_compute. discriminate.
Defined.

Lemma lor_1_odd (x : Z) : Z.odd (Z.lor x 1) = true.
Proof.
  rewrite <- Z.bit0_odd, Z.lor_spec. rewrite (Z.bit0_odd 1).
  apply orb_true_r.
Qed.

Lemma lor_1_bounds (x : Z) : 0 <= x -> 0 <= Z.lor x 1 <= x + 1.
Proof.
  intros H. pose proof (Z.add_lor_land x 1).
  assert (0 <= Z.land x 1) by (apply Z.land_nonneg; lia).
  assert (0 <= Z.lor x 1) by (apply Z.lor_nonneg; lia). lia.
Qed.

(** X5: in the uint64 tier, [2^32 <= n <= 2^53 - 1], the low four bytes are
    those of [n] and the high word is [((n mod 2^32) >> 11) | 1], an odd
    number; so whenever [floor(n / 2^32)] is even the result is not the
    uint64 form of [n]. *)
Theorem encodeInt_uint64_high_word_odd (d : dist) (n : Z) :
  2 ^ 32 <= n <= 2 ^ 53 - 1 ->
  exists h,
    encodeInt d n = [0xcf] ++ big_endian 4 h ++ big_endian 4 n
    /\ h = Z.lor ((n mod 2 ^ 32) / 2 ^ 11) 1
    /\ Z.odd h = true
    /\ (Z.even (n / 2 ^ 32) = true -> encodeInt d n <> [0xcf] ++ big_endian 8 n).
Proof.
  intros H. exists (Z.lor ((n mod 2 ^ 32) / 2 ^ 11) 1).
  pose proof (encodeInt_uint64_tier d n H) as Htier.
  change (2 ^ 32) with 0x100000000 in *.
  split; [exact Htier|]. split; [reflexivity|]. split; [apply lor_1_odd|].
  intros Heven Heq. rewrite Htier, big_endian_8_split in Heq.
  apply app_inv_head in Heq. apply app_inv_tail in Heq.
  apply big_endian_4_inj in Heq.
  assert (Hx : 0 <= (n mod 0x100000000) / 2 ^ 11 < 0x200000)
    by (change (2 ^ 11) with 2048; Z.div_mod_to_equations; lia).
  pose proof (lor_1_bounds _ (proj1 Hx)) as Hb.
  change (2 ^ 53) with 0x20000000000000 in H.
  rewrite (Z.mod_small (Z.lor _ 1)) in Heq by lia.
  rewrite (Z.mod_small (n / 0x100000000)) in Heq
    by (clear - H; Z.div_mod_to_equations; lia).
  pose proof (lor_1_odd ((n mod 0x100000000) / 2 ^ 11)) as Hodd.
  rewrite Heq in Hodd. rewrite <- Z.negb_even, Heven in Hodd. discriminate.
Qed.

Lemma encodeInt_uint64_high_word_odd_witness :
  exists h,
    encodeInt v8v62_cjs (2 ^ 33) = [0xcf] ++ big_endian 4 h ++ big_endian 4 (2 ^ 33)
    /\ h = Z.lor ((2 ^ 33 mod 2 ^ 32) / 2 ^ 11) 1
    /\ Z.odd h = true
    /\ (Z.even (2 ^ 33 / 2 ^ 32) = true ->
        encodeInt v8v62_cjs (2 ^ 33) <> [0xcf] ++ big_endian 8 (2 ^ 33)).
Proof.
  apply (encodeInt_uint64_high_word_odd v8v62_cjs (2 ^ 33)). lia.
Defined.

(** X6: [encodeInt64(hi, lo)] is always eight bytes: the low 32 bits of [hi]
    and then of [lo], big-endian, whatever the two numbers are. *)
Theorem encodeInt64_eight_bytes (hi lo : Z) :
  encodeInt64 hi lo = big_endian 4 (hi mod 2 ^ 32) ++ big_endian 4 (lo mod 2 ^ 32)
  /\ length (encodeInt64 hi lo) = 8%nat
  /\ Forall byte (encodeInt64 hi lo).
Proof.
  change (2 ^ 32) with 0x100000000.
  rewrite encodeInt64_big_endian, !big_endian_4_mod.
  split; [reflexivity|]. split.
  - rewrite length_app, !big_endian_length. reflexivity.
  - apply Forall_app. split; apply big_endian_bytes.
Qed.


(** ** Length prefixes *)

Lemma or_tag_nat (k : nat) :
  (k < 32)%nat ->
  Z.of_nat k .| 0xa0 = 0xa0 + Z.of_nat k
  /\ ((k < 16)%nat ->
      0x90 .| Z.of_nat k = 0x90 + Z.of_nat k /\ 0x80 .| Z.of_nat k = 0x80 + Z.of_nat k).
Proof.
  intros Hk.
  do 32 (destruct k as [|k];
         [split; [reflexivity | intros H; (split; reflexivity) || lia]|]).
  lia.
Qed.

Lemma or_tag_small (len : Z) :
  0 <= len < 32 ->
  len .| 0xa0 = 0xa0 + len
  /\ (len < 16 -> 0x90 .| len = 0x90 + len /\ 0x80 .| len = 0x80 + len).
Proof.
  intros H. destruct (or_tag_nat (Z.to_nat len) ltac:(lia)) as [H1 H2].
  rewrite Z2Nat.id in H1, H2 by lia. split; [exact H1|].
  intros H16. apply H2. lia.
Qed.

Lemma CHR_16 (len : Z) :
  0 <= len < 65536 -> CHR (len >> 8) ++ CHR (len & 0xff) = big_endian 2 len.
Proof.
  intros H. rewrite CHR_and_0xff, shr_div by lia.
  rewrite to_int32_small by lia.
  rewrite CHR_byte by (change (2 ^ 8) with 256; Z.div_mod_to_equations; lia).
  cbn [big_endian app]. bytes_eq.
Qed.

Lemma CHR_32 (len : Z) :
  CHR (len >> 24 & 0xff) ++ CHR (len >> 16 & 0xff) ++ CHR (len >> 8 & 0xff)
  ++ CHR (len & 0xff)
  = big_endian 4 len.
Proof.
  rewrite !CHR_and_0xff. rewrite !shr_div by lia. cbn [big_endian app]. bytes_eq.
Qed.

(** X8: the count that opens a non-empty array or map: inside the tag for
    fewer than 16 entries (90 + n, 80 + n), else dc / de and two big-endian
    bytes below 65536 entries, else dd / df and four bytes. *)
Theorem container_head_tiers (len : Z) :
  0 <= len < 2 ^ 32 ->
  container_head 0x90 0xdc 0xdd len
  = (if len <? 16 then [0x90 + len]
     else if len <? 65536 then [0xdc] ++ big_endian 2 len
     else [0xdd] ++ big_endian 4 len)
  /\ container_head 0x80 0xde 0xdf len
     = (if len <? 16 then [0x80 + len]
        else if len <? 65536 then [0xde] ++ big_endian 2 len
        else [0xdf] ++ big_endian 4 len).
Proof.
  intros H. unfold container_head.
  change 0x10 with 16. change 0x10000 with 65536.
  destruct (Z.ltb_spec len 16).
  - destruct (proj2 (or_tag_small len ltac:(lia)) ltac:(lia)) as [-> ->].
    rewrite !CHR_byte by lia. split; reflexivity.
  - destruct (Z.ltb_spec len 65536).
    + rewrite CHR_16 by lia. split; reflexivity.
    + rewrite CHR_32. split; reflexivity.
Qed.

Lemma container_head_tiers_witness :
  container_head 0x90 0xdc 0xdd 15 = [0x9f]
  /\ container_head 0x80 0xde 0xdf 16 = [0xde; 0x00; 0x10].
Proof.
  split.
  - apply (proj1 (container_head_tiers 15 ltac:(lia))).
  - apply (proj2 (container_head_tiers 16 ltac:(lia))).
Defined.

(** ** Binary data *)

Lemma concat_CHR_bytes (buf : list Z) : Forall byte buf -> concat (map CHR buf) = buf.
Proof.
  induction 1 as [|b rest Hb Hrest IH]; [reflexivity|].
  cbn [map concat]. rewrite CHR_byte by exact Hb. rewrite IH. reflexivity.
Qed.

Lemma encodeBin_form (buf : list Z) :
  Forall byte buf -> Z.of_nat (length buf) < 2 ^ 32 ->
  encodeBin buf
  = (let len := Z.of_nat (length buf) in
     if len <? 256 then [0xc4; len]
     else if len <? 65536 then [0xc5] ++ big_endian 2 len
     else [0xc6] ++ big_endian 4 len) ++ buf.
Proof.
  intros Hbytes Hlen. unfold encodeBin. cbv zeta.
  change 0x100 with 256. change 0x10000 with 65536.
  destruct (Z.eqb_spec (Z.of_nat (length buf)) 0) as [H0|H0].
  - destruct buf; [reflexivity | cbn in H0; lia].
  - assert (Hbin : (if Z.of_nat (length buf) <? 7 then concat (map CHR buf)
                    else latin1Slice {| buf_length := Z.of_nat (length buf);
                                        buf_bytes := buf |} (Z.of_nat (length buf)))
                   = buf).
    { destruct (Z.of_nat (length buf) <? 7); [apply concat_CHR_bytes; exact Hbytes|].
      unfold latin1Slice. cbn [buf_bytes]. rewrite Nat2Z.id. apply firstn_all. }
    rewrite Hbin.
    destruct (Z.ltb_spec (Z.of_nat (length buf)) 256).
    + rewrite CHR_byte by lia. reflexivity.
    + destruct (Z.ltb_spec (Z.of_nat (length buf)) 65536).
      * rewrite <- CHR_16 by lia. rewrite <- !app_assoc. reflexivity.
      * rewrite <- CHR_32. rewrite <- !app_assoc. reflexivity.
Qed.

(** X9: for a buffer of bytes, [encodeBin] returns the bytes unchanged
    behind c4 and the length (below 256 bytes, the empty buffer included),
    c5 and the two big-endian bytes of the length (below 65536), or c6 and
    its four bytes; the byte-by-byte path below 7 bytes and the slice path
    agree. *)
Theorem encodeBin_tiers (buf : list Z) :
  Forall byte buf ->
  let len := Z.of_nat (length buf) in
  (len < 256 -> encodeBin buf = [0xc4; len] ++ buf)
  /\ (256 <= len < 65536 -> encodeBin buf = [0xc5] ++ big_endian 2 len ++ buf)
  /\ (65536 <= len < 2 ^ 32 -> encodeBin buf = [0xc6] ++ big_endian 4 len ++ buf).
Proof.
  intros Hbytes len. subst len.
  repeat split; intros H; rewrite encodeBin_form by (assumption || lia); cbv zeta.
  - destruct (Z.ltb_spec (Z.of_nat (length buf)) 256); [reflexivity | lia].
  - destruct (Z.ltb_spec (Z.of_nat (length buf)) 256); [lia|].
    destruct (Z.ltb_spec (Z.of_nat (length buf)) 65536); [|lia].
    rewrite <- !app_assoc. reflexivity.
  - destruct (Z.ltb_spec (Z.of_nat (length buf)) 256); [lia|].
    destruct (Z.ltb_spec (Z.of_nat (length buf)) 65536); [lia|].
    rewrite <- !app_assoc. reflexivity.
Qed.

Lemma encodeBin_tiers_witness :
  encodeBin [0x2a] = [0xc4; 1] ++ [0x2a]
  /\ encodeBin (repeat 0xff 256) = [0xc5] ++ big_endian 2 256 ++ repeat 0xff 256.
Proof.
  split.
  - apply (proj1 (encodeBin_tiers [0x2a]
                    ltac:(repeat (apply Forall_cons; [unfold byte; lia|]); apply Forall_nil))).
    cbn. lia.
  - apply (proj1 (proj2 (encodeBin_tiers (repeat 0xff 256)
                           ltac:(apply Forall_forall; intros x Hx;
                                 apply repeat_spec in Hx; subst x; unfold byte; lia)))).
    cbn. lia.
Defined.

(** X10: [encodeBin] is injective on buffers (of bytes, shorter than 2^32):
    two different buffers never get the same encoding. *)
Theorem encodeBin_injective (a b : list Z) :
  Forall byte a -> Forall byte b ->
  Z.of_nat (length a) < 2 ^ 32 -> Z.of_nat (length b) < 2 ^ 32 ->
  encodeBin a = encodeBin b -> a = b.
Proof.
  intros Ha Hb Hla Hlb. rewrite !encodeBin_form by assumption. cbv zeta.
  intros Heq. pose proof (f_equal (@length Z) Heq) as Hlen.
  rewrite !length_app in Hlen.
  assert (Hsame : length a = length b).
  { revert Hlen.
    destruct (Z.ltb_spec (Z.of_nat (length a)) 256);
      [|destruct (Z.ltb_spec (Z.of_nat (length a)) 65536)];
      (destruct (Z.ltb_spec (Z.of_nat (length b)) 256);
       [|destruct (Z.ltb_spec (Z.of_nat (length b)) 65536)]);
      cbn [app length]; rewrite ?big_endian_length; lia. }
  rewrite Hsame in Heq. apply app_inv_head in Heq. exact Heq.
Qed.

Lemma encodeBin_injective_witness : [0x2a] = [0x2a].
Proof.
  apply (encodeBin_injective [0x2a] [0x2a]).
  - repeat (apply Forall_cons; [unfold byte; lia|]); apply Forall_nil.
  - repeat (apply Forall_cons; [unfold byte; lia|]); apply Forall_nil.
  - cbn. lia.
  - cbn. lia.
  - reflexivity.
Defined.

(** ** Extensions *)

Lemma CHR_and_0x7f (a : Z) : CHR (a & 0x7f) = [a mod 128].
Proof.
  assert (H : a & 0x7f = a mod 128).
  { unfold JS.and. change (JS.to_int32 0x7f) with (Z.ones 7).
    rewrite Z.land_ones by lia. change (2 ^ 7) with 128.
    unfold JS.to_int32. Z.div_mod_to_equations. lia. }
  rewrite H. apply CHR_byte. Z.div_mod_to_equations. lia.
Qed.

(** X11: [encodeExt] keeps only the low seven bits of the type: a type
    outside 0..127 is not refused, it is encoded as [type mod 128] (so -1
    and 255 both become 7f, and 128 becomes 0). *)
Theorem encodeExt_type_wraps (type : Z) (bin : binary) :
  encodeExt type bin = encodeExt (type mod 128) bin
  /\ exists front, encodeExt type bin = front ++ [type mod 128] ++ bin.
Proof.
  split.
  - unfold encodeExt. rewrite !CHR_and_0x7f. rewrite Z.mod_mod by lia. reflexivity.
  - unfold encodeExt. cbv zeta. rewrite CHR_and_0x7f.
    repeat match goal with
           | |- context [if ?c then _ else _] => destruct c
           end;
      rewrite !app_assoc; rewrite <- app_assoc; eexists; reflexivity.
Qed.

(** X12: the payload length selects the form: d4, d5, d6, d7, d8 for 1, 2,
    4, 8 and 16 bytes, with no length byte; any other length below 256 (0
    included) c7 and the length; c8 and two big-endian bytes below 65536; c9
    and four bytes below 2^32; then the type byte and the payload
    unchanged. *)
Theorem encodeExt_tiers (type : Z) (bin : binary) :
  let len := Z.of_nat (length bin) in
  let ext := [type mod 128] ++ bin in
  (len = 1 -> encodeExt type bin = [0xd4] ++ ext)
  /\ (len = 2 -> encodeExt type bin = [0xd5] ++ ext)
  /\ (len = 4 -> encodeExt type bin = [0xd6] ++ ext)
  /\ (len = 8 -> encodeExt type bin = [0xd7] ++ ext)
  /\ (len = 16 -> encodeExt type bin = [0xd8] ++ ext)
  /\ (len < 256 -> len <> 1 -> len <> 2 -> len <> 4 -> len <> 8 -> len <> 16 ->
      encodeExt type bin = [0xc7; len] ++ ext)
  /\ (256 <= len < 65536 -> encodeExt type bin = [0xc8] ++ big_endian 2 len ++ ext)
  /\ (65536 <= len < 2 ^ 32 -> encodeExt type bin = [0xc9] ++ big_endian 4 len ++ ext).
Proof.
  cbv zeta. unfold encodeExt. cbv zeta. rewrite CHR_and_0x7f.
  change 0x100 with 256. change 0x10000 with 65536.
  repeat split; intros;
    repeat match goal with
           | |- context [Z.eqb ?a ?b] => destruct (Z.eqb_spec a b); try lia
           | |- context [Z.ltb ?a ?b] => destruct (Z.ltb_spec a b); try lia
           end;
    try reflexivity.
  - rewrite CHR_byte by lia. reflexivity.
  - rewrite <- CHR_16 by lia. rewrite <- !app_assoc. reflexivity.
  - rewrite <- CHR_32. rewrite <- !app_assoc. reflexivity.
Qed.

Lemma encodeExt_tiers_witness :
  encodeExt 42 [0x2a] = [0xd4] ++ [42 mod 128] ++ [0x2a]
  /\ encodeExt 1 [] = [0xc7; 0] ++ [1 mod 128] ++ []
  /\ encodeExt 5 (repeat 0 256) = [0xc8] ++ big_endian 2 256 ++ [5 mod 128] ++ repeat 0 256.
Proof.
  split; [|split].
  - apply (proj1 (encodeExt_tiers 42 [0x2a])). reflexivity.
  - apply (proj1 (proj2 (proj2 (proj2 (proj2 (proj2 (encodeExt_tiers 1 []))))))); cbn; lia.
  - apply (proj1 (proj2 (proj2 (proj2 (proj2 (proj2 (proj2 (encodeExt_tiers 5 (repeat 0 256))))))))).
    cbn. lia.
Defined.

(** ** Strings *)



(** The scratch path, given the buffer it writes into. *)
Lemma encodeStr_scratch (e : Encoder) (str : jsstring) (st st1 : scratch) (b : Buffer) :
  0 < str_length str -> bufferMinLen e <= str_length str ->
  grow e (str_length str) st = (Return tt, st1) -> buffer st1 = Some b ->
  encodeStr e str st
  = (Return (str_form (fitting (buf_length b) (utf8_chars str))),
     {| buffer := Some (snd (utf8Write b str)); bufferAlloc := bufferAlloc st1 |}).
Proof.
  intros Hlen Hmin Hgrow Hbuf. unfold encodeStr. cbv zeta.
  destruct (Z.eqb_spec (str_length str) 0); [lia|].
  destruct (Z.ltb_spec (str_length str) (bufferMinLen e)); [lia|].
  rewrite Hgrow, Hbuf.
  unfold utf8Write, latin1Slice. cbn [buf_bytes fst snd].
  rewrite Nat2Z.id, firstn_app, firstn_all, Nat.sub_diag, firstn_0, app_nil_r.
  reflexivity.
Qed.

Lemma encodeStr_refused (e : Encoder) (str : jsstring) (st st1 : scratch) (err : error) :
  0 < str_length str -> bufferMinLen e <= str_length str ->
  grow e (str_length str) st = (Throw err, st1) ->
  encodeStr e str st = (Throw err, st1).
Proof.
  intros Hlen Hmin Hgrow. unfold encodeStr. cbv zeta.
  destruct (Z.eqb_spec (str_length str) 0); [lia|].
  destruct (Z.ltb_spec (str_length str) (bufferMinLen e)); [lia|].
  rewrite Hgrow. reflexivity.
Qed.




Lemma utf8_chars_ascii (s : jsstring) :
  ascii s -> utf8_chars s = map (fun c => [c]) s.
Proof.
  induction 1 as [|c rest Hc Hrest IH]; [reflexivity|].
  cbn [utf8_chars map]. unfold is_high_surrogate, is_low_surrogate.
  destruct (Z.leb_spec 0xd800 c); [lia|]. cbn [andb].
  destruct (Z.leb_spec 0xdc00 c); [lia|]. cbn [andb].
  unfold utf8_code_point. destruct (Z.ltb_spec c 0x80); [|lia].
  rewrite IH. reflexivity.
Qed.

Lemma utf8toBin_ascii (s : jsstring) : ascii s -> utf8toBin s = s.
Proof.
  unfold utf8toBin. induction 1 as [|c rest Hc Hrest IH]; [reflexivity|].
  cbn [map concat]. unfold utf8_code_point at 1.
  destruct (Z.ltb_spec c 0x80); [|lia]. cbn [app]. rewrite IH. reflexivity.
Qed.

Lemma utf8_chars_ascii_concat (s : jsstring) : ascii s -> concat (utf8_chars s) = s.
Proof.
  intros H. rewrite utf8_chars_ascii by exact H.
  clear H. induction s as [|c rest IH]; [reflexivity|].
  cbn [map concat app]. rewrite IH. reflexivity.
Qed.

Lemma str_form_tiers (bin : binary) :
  Z.of_nat (length bin) < 2 ^ 32 ->
  str_form bin
  = (let len := Z.of_nat (length bin) in
     if len <? 32 then [0xa0 + len]
     else if len <? 256 then [0xd9; len]
     else if len <? 65536 then [0xda] ++ big_endian 2 len
     else [0xdb] ++ big_endian 4 len) ++ bin.
Proof.
  intros H. unfold str_form. cbv zeta.
  change 0x20 with 32. change 0x100 with 256. change 0x10000 with 65536.
  destruct (Z.ltb_spec (Z.of_nat (length bin)) 32).
  - rewrite (proj1 (or_tag_small (Z.of_nat (length bin)) ltac:(lia))).
    rewrite CHR_byte by lia. reflexivity.
  - destruct (Z.ltb_spec (Z.of_nat (length bin)) 256).
    + rewrite CHR_byte by lia. reflexivity.
    + destruct (Z.ltb_spec (Z.of_nat (length bin)) 65536).
      * rewrite <- CHR_16 by lia. rewrite <- !app_assoc. reflexivity.
      * rewrite <- CHR_32. rewrite <- !app_assoc. reflexivity.
Qed.

Lemma lor_2_at_least_2 (k : Z) : 0 <= k -> 2 <= Z.lor k 2.
Proof.
  intros H. pose proof (Z.add_lor_land k 2).
  assert (Z.land k 2 <= k).
  { destruct k as [|p|p]; [cbn; lia| |lia].
    destruct p as [[q|q|]|[q|q|]|]; cbn; lia. }
  lia.
Qed.

Lemma encodeStr_ascii_whole (e : Encoder) (str : jsstring) (st : scratch) :
  2048 <= bufferMinAlloc e -> scratch_wf st -> ascii str ->
  str_length str < 2 ^ 32 ->
  bufferMinAlloc e * (str_length str >>> 10 .| 2) <= kMaxLength ->
  fst (encodeStr e str st)
  = Return ((let len := str_length str in
             if len <? 32 then [0xa0 + len]
             else if len <? 256 then [0xd9; len]
             else if len <? 65536 then [0xda] ++ big_endian 2 len
             else [0xdb] ++ big_endian 4 len) ++ str)
  /\ scratch_wf (snd (encodeStr e str st)).
Proof.
  intros Hm Hwf Hascii Hlen Hmax.
  assert (Hform : str_form str
                  = (let len := str_length str in
                     if len <? 32 then [0xa0 + len]
                     else if len <? 256 then [0xd9; len]
                     else if len <? 65536 then [0xda] ++ big_endian 2 len
                     else [0xdb] ++ big_endian 4 len) ++ str).
  { apply str_form_tiers. exact Hlen. }
  destruct (Z.eqb_spec (str_length str) 0) as [H0|H0].
  - destruct str; [|cbn in H0; lia]. split; [reflexivity | exact Hwf].
  - assert (Hpos : 0 < str_length str) by (unfold str_length in *; lia).
    destruct (Z.ltb_spec (str_length str) (bufferMinLen e)) as [Hlt|Hge].
    + rewrite encodeStr_inline by lia. cbn [fst snd].
      rewrite utf8toBin_ascii by exact Hascii. rewrite Hform.
      split; [reflexivity | exact Hwf].
    + assert (Hroom : exists st1 b,
                 grow e (str_length str) st = (Return tt, st1)
                 /\ buffer st1 = Some b
                 /\ buf_length b = bufferAlloc st1
                 /\ str_length str <= buf_length b <= kMaxLength).
      { unfold grow.
        destruct (Z.gtb_spec (str_length str) (bufferAlloc st)) as [Hgt|Hle].
        - assert (Hcap : str_length str
                         <= bufferMinAlloc e * (str_length str >>> 10 .| 2)).
          { rewrite or_2_of_kib by lia.
            pose proof (lor_2_lower (str_length str / 1024)
                          ltac:(apply Z.div_pos; lia)).
            pose proof (lor_2_at_least_2 (str_length str / 1024)
                          ltac:(apply Z.div_pos; lia)).
            assert (str_length str < 1024 * (str_length str / 1024 + 1))
              by (Z.div_mod_to_equations; lia).
            nia. }
          unfold alloc.
          destruct (Z.leb_spec 0 (bufferMinAlloc e * (str_length str >>> 10 .| 2)));
            [|lia].
          destruct (Z.leb_spec (bufferMinAlloc e * (str_length str >>> 10 .| 2))
                      kMaxLength); [|lia].
          cbn [andb]. do 2 eexists. split; [reflexivity|].
          split; [reflexivity|]. cbn [buf_length bufferAlloc]. lia.
        - unfold scratch_wf in Hwf. destruct (buffer st) as [b|] eqn:Hb; [|lia].
          exists st, b. split; [reflexivity|]. split; [exact Hb|]. lia. }
      destruct Hroom as [st1 [b [Hg [Hb [Hcap Hfit]]]]].
      rewrite (encodeStr_scratch e str st st1 b Hpos Hge Hg Hb). cbn [fst snd]. split.
      * rewrite fitting_all.
        -- rewrite utf8_chars_ascii_concat by exact Hascii. rewrite Hform. reflexivity.
        -- rewrite utf8_chars_ascii_concat by exact Hascii. unfold str_length in Hfit. lia.
      * unfold scratch_wf, utf8Write. cbn [buffer bufferAlloc snd buf_length]. lia.
Qed.

(** X14: with a minimum allocation of 2048 bytes or more (the default), as
    long as the capacity a growth asks for is one the allocation accepts,
    an ASCII string is always encoded whole, whatever was encoded before:
    the result is the str header of its length (a0 + length below 32, d9
    and the length below 256, da and two big-endian bytes below 65536, db
    and four bytes) followed by its characters, and the scratch fields
    stay in agreement. *)
Theorem encodeStr_ascii (e : Encoder) (str : jsstring) (st : scratch) :
  2048 <= bufferMinAlloc e -> scratch_wf st -> ascii str ->
  str_length str < 2 ^ 32 ->
  bufferMinAlloc e * (str_length str >>> 10 .| 2) <= kMaxLength ->
  fst (encodeStr e str st)
  = Return ((let len := str_length str in
             if len <? 32 then [0xa0 + len]
             else if len <? 256 then [0xd9; len]
             else if len <? 65536 then [0xda] ++ big_endian 2 len
             else [0xdb] ++ big_endian 4 len) ++ str)
  /\ scratch_wf (snd (encodeStr e str st)).
Proof. apply encodeStr_ascii_whole. Qed.

Lemma encodeStr_ascii_witness :
  fst (encodeStr (new_Encoder format_imports default_options) (repeat 97 40) new_scratch)
  = Return ((let len := str_length (repeat 97 40) in
             if len <? 32 then [0xa0 + len]
             else if len <? 256 then [0xd9; len]
             else if len <? 65536 then [0xda] ++ big_endian 2 len
             else [0xdb] ++ big_endian 4 len) ++ repeat 97 40)
  /\ scratch_wf (snd (encodeStr (new_Encoder format_imports default_options)
                        (repeat 97 40) new_scratch)).
Proof.
  apply (encodeStr_ascii (new_Encoder format_imports default_options)
           (repeat 97 40) new_scratch).
  - vm_compute. discriminate.
  - reflexivity.
  - apply Forall_forall. intros c Hc. apply repeat_spec in Hc. subst c. lia.
  - vm_compute. reflexivity.
  - vm_compute. discriminate.
Defined.

(** ** Arrays, objects and maps *)

Lemma bind_apply {A B} (m : M A) (k : A -> M B) (st : scratch) :
  bind m k st
  = match m st with
    | (Return a, st') => k a st'
    | (Throw err, st') => (Throw err, st')
    end.
Proof. reflexivity. Qed.

Lemma ret_apply {A} (a : A) (st : scratch) : ret a st = (Return a, st).
Proof. reflexivity. Qed.

#[local] Ltac mstep :=
  repeat (progress (rewrite ?bind_apply, ?ret_apply; cbv beta iota)).

Lemma each_app {A B} (call : A -> M B) (xs ys : list A) (st : scratch) :
  each call (xs ++ ys) st
  = (bs <- each call xs ;; cs <- each call ys ;; ret (bs ++ cs)) st.
Proof.
  revert st. induction xs as [|x xs IH]; intros st.
  - cbn [app each]. mstep.
    destruct (each call ys st) as [[cs|err] st']; reflexivity.
  - cbn [app each]. mstep.
    destruct (call x st) as [[b|err] st1]; mstep; [|reflexivity].
    rewrite IH. mstep.
    destruct (each call xs st1) as [[bs|err] st2]; mstep; [|reflexivity].
    destruct (each call ys st2) as [[cs|err] st3]; mstep; reflexivity.
Qed.

Lemma encode_array_each (d : dist) (e : Encoder) (arr : list value) (st : scratch) :
  encode d e (VArray arr) st
  = (bs <- each (encode d e) arr ;;
     ret (container_head 0x90 0xdc 0xdd (Z.of_nat (length arr)) ++ concat bs)) st.
Proof.
  cbn [encode]. unfold encodeArray_with.
  destruct (Z.eqb_spec (Z.of_nat (length arr)) 0) as [H0|H0].
  - destruct arr; [reflexivity | cbn in H0; lia].
  - generalize (container_head 0x90 0xdc 0xdd (Z.of_nat (length arr))).
    clear H0. revert st. induction arr as [|x rest IH]; intros st bin.
    + cbn [each concat]. mstep. rewrite app_nil_r. reflexivity.
    + cbn [each]. mstep.
      destruct (encode d e x st) as [[b|err] st1]; mstep; [|reflexivity].
      rewrite IH. mstep.
      destruct (each (encode d e) rest st1) as [[bs|err] st2]; mstep; [|reflexivity].
      cbn [concat]. rewrite app_assoc. reflexivity.
Qed.


(** X16: when an element of an array cannot be encoded, the array cannot:
    [encode] throws what the element threw, in the state the element left,
    and the elements after it are not looked at. *)
Theorem encode_array_throws (d : dist) (e : Encoder) (before after : list value)
    (x : value) (st st1 st2 : scratch) (bs : list binary) (err : error) :
  each (encode d e) before st = (Return bs, st1) ->
  encode d e x st1 = (Throw err, st2) ->
  encode d e (VArray (before ++ x :: after)) st = (Throw err, st2).
Proof.
  intros Hbefore Hx. rewrite encode_array_each. mstep.
  rewrite each_app. mstep. rewrite Hbefore. mstep.
  cbn [each]. mstep. rewrite Hx. reflexivity.
Qed.

Lemma encode_array_throws_witness :
  encode v8_6_2 (new_Encoder format_imports default_options)
    (VArray ([VNum (NInt 1)] ++ VUndefined :: [VStr (repeat 97 20)])) new_scratch
  = (Throw (EncodingFailed VUndefined Undefined), new_scratch).
Proof.
  apply (encode_array_throws v8_6_2 (new_Encoder format_imports default_options)
           [VNum (NInt 1)] [VStr (repeat 97 20)] VUndefined
           new_scratch new_scratch new_scratch [[1]]).
  - reflexivity.
  - reflexivity.
Defined.


(** X18: in [dist/v8-6.2], with [objectKeys] other than ['ascii'],
    [encodeObject] gives what [encodeMap] gives for the [Map] of the same
    entries, its keys as strings. *)
Theorem encodeObject_as_encodeMap (e : Encoder)
    (obj : list (jsstring * value)) (st : scratch) :
  encodeObjectKeys e = KeyStr ->
  encodeObject v8_6_2 e obj st
  = encodeMap e (map (fun p => (VStr (fst p), snd p)) obj) st.
Proof.
  intros Hkey. unfold encodeObject, encodeObject_with, encodeMap.
  rewrite length_map.
  destruct (Z.of_nat (length obj) =? 0); [reflexivity|].
  generalize (container_head 0x80 0xde 0xdf (Z.of_nat (length obj))).
  revert st. induction obj as [|[key x] rest IH]; intros st bin; [reflexivity|].
  cbn [map fst snd]. mstep.
  unfold encodeObjectKey at 1. rewrite Hkey. cbn [encode].
  destruct (encodeStr e key st) as [[k|err] st1]; mstep; [|reflexivity].
  destruct (encode v8_6_2 e x st1) as [[b|err] st2]; mstep; [|reflexivity].
  apply IH.
Qed.

Lemma encodeObject_as_encodeMap_witness :
  encodeObject v8_6_2
    (new_Encoder format_imports
       {| opt_float := Float64; opt_objectKeys := Utf8; opt_bufferMinLen := 15;
          opt_bufferMinAlloc := 2048; opt_handler := throwsEncoderHandler;
          opt_codecs := None |})
    [([107], VNull)] new_scratch
  = encodeMap
      (new_Encoder format_imports
         {| opt_float := Float64; opt_objectKeys := Utf8; opt_bufferMinLen := 15;
            opt_bufferMinAlloc := 2048; opt_handler := throwsEncoderHandler;
            opt_codecs := None |})
      (map (fun p => (VStr (fst p), snd p)) [([107], VNull)]) new_scratch.
Proof.
  apply (encodeObject_as_encodeMap _ [([107], VNull)] new_scratch).
  reflexivity.
Defined.

(** ** Codecs that answer [null] *)

Lemma encodeArray_with_ext (enc1 enc2 : value -> M binary) (arr : list value) :
  Forall (fun x => forall st, enc1 x st = enc2 x st) arr ->
  forall st, encodeArray_with enc1 arr st = encodeArray_with enc2 arr st.
Proof.
  intros H st. unfold encodeArray_with.
  destruct (Z.of_nat (length arr) =? 0); [reflexivity|].
  generalize (container_head 0x90 0xdc 0xdd (Z.of_nat (length arr))).
  revert st. induction H as [|x rest Hx Hrest IH]; intros st bin; [reflexivity|].
  mstep. rewrite Hx. destruct (enc2 x st) as [[b|err] st1]; mstep; [|reflexivity].
  apply IH.
Qed.

Lemma encodeObject_with_ext (e1 e2 : Encoder) (enc1 enc2 : value -> M binary)
    (obj : list (jsstring * value)) :
  (forall key st, encodeObjectKey e1 key st = encodeObjectKey e2 key st) ->
  Forall (fun p => forall st, enc1 (snd p) st = enc2 (snd p) st) obj ->
  forall st, encodeObject_with e1 enc1 obj st = encodeObject_with e2 enc2 obj st.
Proof.
  intros Hkey H st. unfold encodeObject_with.
  destruct (Z.of_nat (length obj) =? 0); [reflexivity|].
  generalize (container_head 0x80 0xde 0xdf (Z.of_nat (length obj))).
  revert st. induction H as [|[key x] rest Hx Hrest IH]; intros st bin; [reflexivity|].
  mstep. rewrite Hkey.
  destruct (encodeObjectKey e2 key st) as [[k|err] st1]; mstep; [|reflexivity].
  cbn [snd] in Hx. rewrite Hx.
  destruct (enc2 x st1) as [[b|err] st2]; mstep; [|reflexivity].
  apply IH.
Qed.

Lemma encodeStr_ext (e1 e2 : Encoder) (str : jsstring) (st : scratch) :
  bufferMinLen e1 = bufferMinLen e2 -> bufferMinAlloc e1 = bufferMinAlloc e2 ->
  encodeStr e1 str st = encodeStr e2 str st.
Proof. intros H1 H2. unfold encodeStr, grow. rewrite H1, H2. reflexivity. Qed.

(** Encoders that differ in their codec lists only, and whose lists answer
    alike, encode alike. *)
Lemma encode_ext_codecs (d : dist) (e1 e2 : Encoder) :
  handler e1 = handler e2 -> encodeFloat e1 = encodeFloat e2 ->
  encodeObjectKeys e1 = encodeObjectKeys e2 ->
  bufferMinLen e1 = bufferMinLen e2 -> bufferMinAlloc e1 = bufferMinAlloc e2 ->
  (forall v st, registry_walk e1 v st = registry_walk e2 v st) ->
  forall v st, encode d e1 v st = encode d e2 v st.
Proof.
  intros Hh Hf Hk Hlen Halloc Hwalk.
  assert (Hkey : forall key st, encodeObjectKey e1 key st = encodeObjectKey e2 key st).
  { intros key st. unfold encodeObjectKey. rewrite Hk.
    destruct (encodeObjectKeys e2); [reflexivity|]. apply encodeStr_ext; assumption. }
  induction v as [ | | | z | s | n | b | | arr IH | buf | type data | obj IH ];
    intros st; cbn [encode]; try reflexivity; try (rewrite Hh; reflexivity).
  - apply encodeStr_ext; assumption.
  - destruct n; [reflexivity|]. rewrite Hf. reflexivity.
  - apply encodeArray_with_ext.
    induction IH as [|x Hx rest Hrest IHrest]; constructor; assumption.
  - assert (Hobj : forall st, encodeObject_with e1 (encode d e1) obj st
                              = encodeObject_with e2 (encode d e2) obj st).
    { apply encodeObject_with_ext; [exact Hkey|].
      induction IH as [|p Hp rest Hrest IHrest]; constructor; [|assumption].
      destruct Hp as [key _ x Hx]. exact Hx. }
    specialize (Hwalk (VObject obj) st). unfold registry_walk in Hwalk.
    destruct (codecs e1) as [cs1|], (codecs e2) as [cs2|]; mstep.
    + rewrite Hwalk. destruct (walk_codecs cs2 _ _ st) as [[[bin|]|err] st1];
        mstep; try reflexivity. apply Hobj.
    + rewrite Hwalk. mstep. apply Hobj.
    + rewrite <- Hwalk. mstep. apply Hobj.
    + apply Hobj.
Qed.

Lemma first_non_null_skip (l1 l2 : list Codec) (v : value) (st : scratch) :
  first_non_null (l1 ++ UndefinedCodec :: l2) v st = first_non_null (l1 ++ l2) v st.
Proof.
  revert st. induction l1 as [|c l1 IH]; intros st; [reflexivity|].
  cbn [app first_non_null]. mstep.
  destruct (codec_encode c v st) as [[[b|]|err] st1]; mstep; try reflexivity.
  apply IH.
Qed.

(** X19: [UndefinedCodec] never claims a value: registered anywhere in the
    codec list, or alone, it leaves every result of [encode] (bytes, error
    and scratch state) as it is without it. *)
Theorem UndefinedCodec_is_inert (d : dist) (e : Encoder) (cs1 cs2 : list Codec)
    (v : value) (st : scratch) :
  encode d (set_codecs (Some (cs1 ++ UndefinedCodec :: cs2)) e) v st
  = encode d (set_codecs (Some (cs1 ++ cs2)) e) v st
  /\ encode d (set_codecs (Some [UndefinedCodec]) e) v st
     = encode d (set_codecs None e) v st.
Proof.
  split; apply encode_ext_codecs; try reflexivity.
  intros w s. unfold registry_walk. cbn [codecs set_codecs].
  rewrite !walk_codecs_newest_first by lia. rewrite !firstn_all.
  rewrite !rev_app_distr. cbn [rev]. rewrite <- app_assoc. cbn [app].
  apply first_non_null_skip.
Qed.

(** ** Which values a default encoder encodes *)

Section Supported.

Variables (d : dist) (e : Encoder).
Hypothesis no_codecs : codecs e = None.
Hypothesis default_handler : handler e = throwsEncoderHandler.







End Supported.



(** ** ASCII data and the scratch settings *)

Lemma is_ascii_spec (s : jsstring) :
  is_ascii s = true -> ascii s /\ str_length s < 2 ^ 20.
Proof.
  unfold is_ascii. intros H. apply andb_true_iff in H as [H1 H2]. split; [|lia].
  unfold ascii. apply Forall_forall. intros c Hc.
  rewrite forallb_forall in H1. specialize (H1 c Hc). lia.
Qed.

Lemma lor_2_upper (k : Z) : 0 <= k -> Z.lor k 2 <= k + 2.
Proof.
  intros H. pose proof (Z.add_lor_land k 2).
  assert (0 <= Z.land k 2) by (apply Z.land_nonneg; lia). lia.
Qed.

Lemma growth_within_limit (m len : Z) :
  0 <= m <= 2 ^ 20 -> 0 <= len < 2 ^ 20 -> m * (len >>> 10 .| 2) <= kMaxLength.
Proof.
  intros Hm Hlen. rewrite or_2_of_kib by lia.
  assert (Hk : 0 <= len / 1024 <= 1023) by (Z.div_mod_to_equations; lia).
  pose proof (lor_2_upper (len / 1024) (proj1 Hk)).
  assert (0 <= Z.lor (len / 1024) 2) by (apply Z.lor_nonneg; lia).
  unfold kMaxLength. change (2 ^ 20) with 1048576 in *. nia.
Qed.

Section Agree.

Variables (d : dist) (e1 e2 : Encoder).
Hypothesis alloc1 : 2048 <= bufferMinAlloc e1 <= 2 ^ 20.
Hypothesis alloc2 : 2048 <= bufferMinAlloc e2 <= 2 ^ 20.
Hypothesis no_codecs1 : codecs e1 = None.
Hypothesis no_codecs2 : codecs e2 = None.
Hypothesis handler1 : handler e1 = throwsEncoderHandler.
Hypothesis handler2 : handler e2 = throwsEncoderHandler.
Hypothesis same_float : encodeFloat e1 = encodeFloat e2.
Hypothesis same_keys : encodeObjectKeys e1 = encodeObjectKeys e2.

Lemma agree_str (s : jsstring) (st1 st2 : scratch) :
  is_ascii s = true -> scratch_wf st1 -> scratch_wf st2 ->
  agree (encodeStr e1 s st1) (encodeStr e2 s st2).
Proof.
  intros Hs H1 H2. apply is_ascii_spec in Hs as [Ha Hlen].
  assert (Hpos : 0 <= str_length s) by (unfold str_length; lia).
  destruct (encodeStr_ascii_whole e1 s st1 ltac:(lia) H1 Ha ltac:(lia)
              ltac:(apply growth_within_limit; lia)) as [R1 W1].
  destruct (encodeStr_ascii_whole e2 s st2 ltac:(lia) H2 Ha ltac:(lia)
              ltac:(apply growth_within_limit; lia)) as [R2 W2].
  split; [rewrite R1, R2; reflexivity | split; assumption].
Qed.

Lemma agree_key (key : jsstring) (st1 st2 : scratch) :
  is_ascii key = true -> scratch_wf st1 -> scratch_wf st2 ->
  agree (encodeObjectKey e1 key st1) (encodeObjectKey e2 key st2).
Proof.
  intros Hs H1 H2. unfold encodeObjectKey. rewrite same_keys.
  destruct (encodeObjectKeys e2).
  - split; [reflexivity | split; assumption].
  - apply agree_str; assumption.
Qed.

Lemma agree_array (enc1 enc2 : value -> M binary) (arr : list value) :
  Forall (fun x => forall st1 st2, scratch_wf st1 -> scratch_wf st2 ->
                     agree (enc1 x st1) (enc2 x st2)) arr ->
  forall st1 st2, scratch_wf st1 -> scratch_wf st2 ->
    agree (encodeArray_with enc1 arr st1) (encodeArray_with enc2 arr st2).
Proof.
  intros H st1 st2 H1 H2. unfold encodeArray_with.
  destruct (Z.of_nat (length arr) =? 0); [split; [reflexivity | split; assumption]|].
  generalize (container_head 0x90 0xdc 0xdd (Z.of_nat (length arr))).
  revert st1 st2 H1 H2.
  induction H as [|x rest Hx Hrest IH]; intros st1 st2 H1 H2 bin.
  - split; [reflexivity | split; assumption].
  - mstep. destruct (Hx st1 st2 H1 H2) as [Hr [W1 W2]].
    destruct (enc1 x st1) as [[b1|err1] s1], (enc2 x st2) as [[b2|err2] s2];
      cbn [fst snd] in *; mstep; try discriminate.
    + injection Hr as ->. apply IH; assumption.
    + split; [exact Hr | split; assumption].
Qed.

Lemma agree_object (enc1 enc2 : value -> M binary) (obj : list (jsstring * value)) :
  Forall (fun p => is_ascii (fst p) = true
                   /\ forall st1 st2, scratch_wf st1 -> scratch_wf st2 ->
                        agree (enc1 (snd p) st1) (enc2 (snd p) st2)) obj ->
  forall st1 st2, scratch_wf st1 -> scratch_wf st2 ->
    agree (encodeObject_with e1 enc1 obj st1) (encodeObject_with e2 enc2 obj st2).
Proof.
  intros H st1 st2 H1 H2. unfold encodeObject_with.
  destruct (Z.of_nat (length obj) =? 0); [split; [reflexivity | split; assumption]|].
  generalize (container_head 0x80 0xde 0xdf (Z.of_nat (length obj))).
  revert st1 st2 H1 H2.
  induction H as [|[key x] rest [Hk Hx] Hrest IH]; intros st1 st2 H1 H2 bin.
  - split; [reflexivity | split; assumption].
  - mstep. cbn [fst snd] in *.
    destruct (agree_key key st1 st2 Hk H1 H2) as [Hr [W1 W2]].
    destruct (encodeObjectKey e1 key st1) as [[k1|err1] s1],
             (encodeObjectKey e2 key st2) as [[k2|err2] s2];
      cbn [fst snd] in *; mstep; try discriminate.
    2:{ split; [exact Hr | split; assumption]. }
    injection Hr as ->.
    destruct (Hx s1 s2 W1 W2) as [Hr' [W1' W2']].
    destruct (enc1 x s1) as [[b1|err1] t1], (enc2 x s2) as [[b2|err2] t2];
      cbn [fst snd] in *; mstep; try discriminate.
    + injection Hr' as ->. apply IH; assumption.
    + split; [exact Hr' | split; assumption].
Qed.

Lemma agree_handler (v : value) (st1 st2 : scratch) :
  scratch_wf st1 -> scratch_wf st2 ->
  agree (throwsEncoderHandler v st1) (throwsEncoderHandler v st2).
Proof.
  intros H1 H2. destruct v; (split; [reflexivity | split; assumption]).
Qed.

Lemma agree_encode (v : value) :
  ascii_only v = true ->
  forall st1 st2, scratch_wf st1 -> scratch_wf st2 ->
    agree (encode d e1 v st1) (encode d e2 v st2).
Proof.
  induction v as [ | | | z | s | n | b | | arr IH | buf | type data | obj IH ];
    intros Hv st1 st2 H1 H2; cbn [encode];
    try (rewrite handler1, handler2; apply agree_handler; assumption);
    try (split; [reflexivity | split; assumption]).
  - apply agree_str; assumption.
  - destruct n; [split; [reflexivity | split; assumption]|].
    rewrite same_float. split; [reflexivity | split; assumption].
  - apply agree_array; try assumption. cbn [ascii_only] in Hv.
    induction IH as [|x Hx rest Hrest IHrest]; [constructor|].
    cbn [forallb] in Hv. apply andb_true_iff in Hv as [Hv1 Hv2].
    constructor; [apply Hx; exact Hv1 | apply IHrest; exact Hv2].
  - rewrite no_codecs1, no_codecs2. apply agree_object; try assumption.
    cbn [ascii_only] in Hv.
    induction IH as [|p Hp rest Hrest IHrest]; [constructor|].
    cbn [forallb] in Hv. apply andb_true_iff in Hv as [Hv1 Hv2].
    apply andb_true_iff in Hv1 as [Hk Hx].
    constructor; [|apply IHrest; exact Hv2].
    destruct Hp as [key _ x Hx']. cbn [fst snd] in *. split; [exact Hk|].
    apply Hx'. exact Hx.
Qed.

End Agree.

(** X21: for a value whose strings and keys are ASCII and shorter than
    [2^20] characters, the scratch-buffer settings and what was encoded
    before do not show in the result. Two encoders built from the same
    options but for [bufferMinLen] and [bufferMinAlloc] (each
    [bufferMinAlloc] between 2048 and [2^20], so that every growth is one
    the allocation accepts; no codecs, the default handler), in any two
    states with the scratch fields in agreement, return the same bytes or
    throw the same error. *)
Theorem encode_ascii_ignores_scratch (d : dist) (imports : Imports) (o : options)
    (len1 alloc1 len2 alloc2 : Z) (v : value) (st1 st2 : scratch) :
  opt_codecs o = None -> opt_handler o = throwsEncoderHandler ->
  2048 <= alloc1 <= 2 ^ 20 -> 2048 <= alloc2 <= 2 ^ 20 ->
  ascii_only v = true -> scratch_wf st1 -> scratch_wf st2 ->
  fst (encode d (new_Encoder imports (with_scratch_settings len1 alloc1 o)) v st1)
  = fst (encode d (new_Encoder imports (with_scratch_settings len2 alloc2 o)) v st2).
Proof.
  intros Hc Hh Ha1 Ha2 Hv H1 H2.
  assert (Hu : forall a, 2048 <= a <= 2 ^ 20 -> a >>> 0 = a).
  { intros a Ha. rewrite ushr_div by lia. change (2 ^ 0) with 1.
    rewrite Z.div_1_r. apply Z.mod_small. change (2 ^ 20) with 1048576 in Ha. lia. }
  apply (agree_encode d (new_Encoder imports (with_scratch_settings len1 alloc1 o))
           (new_Encoder imports (with_scratch_settings len2 alloc2 o)));
    cbn [new_Encoder with_scratch_settings bufferMinAlloc codecs handler encodeFloat
         encodeObjectKeys opt_bufferMinAlloc opt_codecs opt_handler opt_float
         opt_objectKeys];
    rewrite ?Hu by assumption; try assumption; reflexivity.
Qed.

Lemma encode_ascii_ignores_scratch_witness :
  fst (encode v8v62_cjs
         (new_Encoder format_imports (with_scratch_settings 15 2048 default_options))
         (VArray [VStr (repeat 97 2048); VNum (NInt 7)]) new_scratch)
  = fst (encode v8v62_cjs
           (new_Encoder format_imports (with_scratch_settings 3000 4096 default_options))
           (VArray [VStr (repeat 97 2048); VNum (NInt 7)])
           (snd (encodeStr
                   (new_Encoder format_imports
                      (with_scratch_settings 3000 4096 default_options))
                   (repeat 98 5000) new_scratch))).
Proof.
  apply (encode_ascii_ignores_scratch v8v62_cjs format_imports default_options
           15 2048 3000 4096).
  - reflexivity.
  - reflexivity.
  - lia.
  - lia.
  - vm_compute. reflexivity.
  - reflexivity.
  - vm_compute. split; [reflexivity | split; discriminate].
Defined.

(** ** Short strings *)

Lemma stateless_ret {A} (a : A) : stateless (ret a).
Proof. exists (Return a). reflexivity. Qed.

Lemma stateless_throw {A} (err : error) : stateless (@throw A err).
Proof. exists (Throw err). reflexivity. Qed.

Lemma stateless_bind {A B} (c : M A) (k : A -> M B) :
  stateless c -> (forall a, stateless (k a)) -> stateless (bind c k).
Proof.
  intros [r Hr] Hk. destruct r as [a|err].
  - destruct (Hk a) as [r' Hr']. exists r'. intros st. mstep. rewrite Hr. apply Hr'.
  - exists (Throw err). intros st. mstep. rewrite Hr. reflexivity.
Qed.

Lemma stateless_encodeStr (e : Encoder) (str : jsstring) :
  str_length str < bufferMinLen e -> stateless (encodeStr e str).
Proof.
  intros H. destruct str as [|c rest].
  - exists (Return [0xa0]). reflexivity.
  - exists (Return (str_form (utf8toBin (c :: rest)))). intros st.
    apply encodeStr_inline. unfold str_length in *. cbn [length] in *. lia.
Qed.

Lemma stateless_array (enc : value -> M binary) (arr : list value) :
  Forall (fun x => stateless (enc x)) arr -> stateless (encodeArray_with enc arr).
Proof.
  intros H. unfold encodeArray_with.
  destruct (Z.of_nat (length arr) =? 0); [apply stateless_ret|].
  generalize (container_head 0x90 0xdc 0xdd (Z.of_nat (length arr))).
  induction H as [|x rest Hx Hrest IH]; intros bin; [apply stateless_ret|].
  apply stateless_bind; [exact Hx|]. intros b. apply IH.
Qed.

Lemma stateless_object (e : Encoder) (enc : value -> M binary)
    (obj : list (jsstring * value)) :
  Forall (fun p => stateless (encodeObjectKey e (fst p)) /\ stateless (enc (snd p))) obj ->
  stateless (encodeObject_with e enc obj).
Proof.
  intros H. unfold encodeObject_with.
  destruct (Z.of_nat (length obj) =? 0); [apply stateless_ret|].
  generalize (container_head 0x80 0xde 0xdf (Z.of_nat (length obj))).
  induction H as [|[key x] rest [Hk Hx] Hrest IH]; intros bin; [apply stateless_ret|].
  apply stateless_bind; [exact Hk|]. intros k.
  apply stateless_bind; [exact Hx|]. intros b. apply IH.
Qed.

(** X22: while every string and key is shorter than [bufferMinLen], an
    encoder without codecs and with the default handler never touches its
    scratch buffer: [encode] leaves the state as it found it, and its
    result is the same in every state. *)
Theorem encode_short_strings_stateless (d : dist) (e : Encoder) (v : value) :
  codecs e = None -> handler e = throwsEncoderHandler ->
  short_strings (bufferMinLen e) v = true ->
  exists r, forall st, encode d e v st = (r, st).
Proof.
  intros Hc Hh.
  change (short_strings (bufferMinLen e) v = true -> stateless (encode d e v)).
  induction v as [ | | | z | s | n | b | | arr IH | buf | type data | obj IH ];
    intros Hv; cbn [encode];
    try (rewrite Hh; apply stateless_throw); try apply stateless_ret.
  - apply stateless_encodeStr. cbn in Hv. lia.
  - destruct n; apply stateless_ret.
  - apply stateless_array. cbn [short_strings] in Hv.
    induction IH as [|x Hx rest Hrest IHrest]; [constructor|].
    cbn [forallb] in Hv. apply andb_true_iff in Hv as [Hv1 Hv2].
    constructor; [apply Hx; exact Hv1 | apply IHrest; exact Hv2].
  - rewrite Hc. apply stateless_object. cbn [short_strings] in Hv.
    induction IH as [|p Hp rest Hrest IHrest]; [constructor|].
    cbn [forallb] in Hv. apply andb_true_iff in Hv as [Hv1 Hv2].
    apply andb_true_iff in Hv1 as [Hk Hx].
    constructor; [|apply IHrest; exact Hv2].
    destruct Hp as [key _ x Hx']. cbn [fst snd] in *. split.
    + unfold encodeObjectKey. destruct (encodeObjectKeys e); [apply stateless_ret|].
      apply stateless_encodeStr. lia.
    + apply Hx'. exact Hx.
Qed.

Lemma encode_short_strings_stateless_witness :
  exists r, forall st,
    encode v8_6_2 (new_Encoder format_imports default_options)
      (VObject [([107; 101; 121], VArray [VStr [0x20ac]; VBool true])]) st
    = (r, st).
Proof.
  apply (encode_short_strings_stateless v8_6_2
           (new_Encoder format_imports default_options)
           (VObject [([107; 101; 121], VArray [VStr [0x20ac]; VBool true])])).
  - reflexivity.
  - reflexivity.
  - vm_compute. reflexivity.
Defined.

(** ** Codec priority *)

Lemma first_non_null_pass (l1 l2 : list Codec) (v : value) (st st1 : scratch) :
  first_non_null l1 v st = (Return None, st1) ->
  first_non_null (l1 ++ l2) v st = first_non_null l2 v st1.
Proof.
  revert st. induction l1 as [|c l1 IH]; intros st H.
  - cbn in H. injection H as ->. reflexivity.
  - cbn [app first_non_null] in *. revert H. mstep.
    destruct (codec_encode c v st) as [[[b|]|err] st']; mstep; try discriminate.
    apply IH.
Qed.

(** X23: priority among codecs. When the codecs registered after [c] all
    answer [null] for an object and [c] answers bytes, [encode] returns
    those bytes, and when [c] throws, [encode] throws that error; either
    way the codecs registered before [c] are not called, whatever they
    are. *)
Theorem encode_object_newest_answer_wins (d : dist) (e : Encoder)
    (older newer : list Codec) (c : Codec) (obj : list (jsstring * value))
    (st st1 st2 : scratch) :
  codecs e = Some (older ++ c :: newer) ->
  first_non_null (rev newer) (VObject obj) st = (Return None, st1) ->
  (forall b, codec_encode c (VObject obj) st1 = (Return (Some b), st2) ->
     encode d e (VObject obj) st = (Return b, st2))
  /\ (forall err, codec_encode c (VObject obj) st1 = (Throw err, st2) ->
        encode d e (VObject obj) st = (Throw err, st2)).
Proof.
  intros Hcs Hnewer.
  assert (Hwalk : walk_codecs (older ++ c :: newer) (length (older ++ c :: newer))
                    (VObject obj) st
                  = first_non_null (c :: rev older) (VObject obj) st1).
  { rewrite walk_codecs_newest_first by lia. rewrite firstn_all.
    rewrite rev_app_distr. cbn [rev]. rewrite <- app_assoc. cbn [app].
    apply first_non_null_pass. exact Hnewer. }
  split; intros r Hc; cbn [encode]; rewrite Hcs; mstep; rewrite Hwalk;
    cbn [first_non_null]; mstep; rewrite Hc; reflexivity.
Qed.

Lemma encode_object_newest_answer_wins_witness :
  encode v8_6_2
    (new_Encoder format_imports
       (with_codecs ([constant_codec 1 [0xc7]] ++ constant_codec 2 [0xc8] :: [UndefinedCodec])
          default_options))
    (VObject []) new_scratch
  = (Return [0xc8], new_scratch).
Proof.
  apply (proj1 (encode_object_newest_answer_wins v8_6_2
                  (new_Encoder format_imports
                     (with_codecs ([constant_codec 1 [0xc7]] ++ constant_codec 2 [0xc8]
                                   :: [UndefinedCodec]) default_options))
                  [constant_codec 1 [0xc7]] [UndefinedCodec] (constant_codec 2 [0xc8])
                  [] new_scratch new_scratch new_scratch eq_refl eq_refl)).
  reflexivity.
Defined.

(** ** The scratch fields stay in agreement *)

Lemma keeps_wf_ret {A} (a : A) : keeps_wf (ret a).
Proof. intros st H. right. exact H. Qed.

Lemma keeps_wf_throw {A} (err : error) : keeps_wf (@throw A err).
Proof. intros st H. right. exact H. Qed.

Lemma keeps_wf_bind {A B} (c : M A) (k : A -> M B) :
  keeps_wf c -> (forall a, keeps_wf (k a)) -> keeps_wf (bind c k).
Proof.
  intros Hc Hk st H. rewrite bind_apply. specialize (Hc st H).
  destruct (c st) as [[a|err] st']; cbn [fst snd] in *.
  - destruct Hc as [Hc | Hc]; [discriminate Hc|]. apply Hk. exact Hc.
  - destruct Hc as [Hc | Hc]; [left; injection Hc as ->; reflexivity | right; exact Hc].
Qed.

Lemma keeps_wf_encodeStr (e : Encoder) (str : jsstring) : keeps_wf (encodeStr e str).
Proof.
  intros st Hwf.
  destruct (Z.eqb_spec (str_length str) 0) as [H0|H0].
  { destruct str; [right; exact Hwf | cbn in H0; lia]. }
  assert (Hpos : 0 < str_length str) by (unfold str_length in *; lia).
  destruct (Z.ltb_spec (str_length str) (bufferMinLen e)) as [Hlt|Hge].
  { rewrite encodeStr_inline by lia. right. exact Hwf. }
  destruct (grow e (str_length str) st) as [[[]|err] st1] eqn:Hg.
  - assert (Hb : exists b, buffer st1 = Some b /\ buf_length b = bufferAlloc st1
                           /\ 0 <= buf_length b <= kMaxLength).
    { unfold grow in Hg.
      destruct (Z.gtb_spec (str_length str) (bufferAlloc st)) as [Hgt|Hle].
      - unfold alloc in Hg.
        destruct (Z.leb_spec 0 (bufferMinAlloc e * (str_length str >>> 10 .| 2)));
          [|discriminate Hg].
        destruct (Z.leb_spec (bufferMinAlloc e * (str_length str >>> 10 .| 2))
                    kMaxLength); [|discriminate Hg].
        cbn [andb] in Hg. injection Hg as <-. eexists. split; [reflexivity|].
        cbn [buf_length bufferAlloc]. lia.
      - injection Hg as <-. unfold scratch_wf in Hwf.
        destruct (buffer st) as [b|]; [|lia]. exists b. split; [reflexivity | exact Hwf]. }
    destruct Hb as [b [Hb Hlen]].
    rewrite (encodeStr_scratch e str st st1 b Hpos Hge Hg Hb). right.
    unfold scratch_wf, utf8Write. cbn [snd buffer bufferAlloc buf_length]. exact Hlen.
  - left. rewrite (encodeStr_refused e str st st1 err Hpos Hge Hg). cbn [fst].
    unfold grow in Hg. destruct (str_length str >? bufferAlloc st); [|discriminate Hg].
    destruct (alloc _); [discriminate Hg|]. injection Hg as <- _. reflexivity.
Qed.

Lemma keeps_wf_walk (cs : list Codec) (v : value) (i : nat) :
  Forall (fun c => forall v, keeps_wf (codec_encode c v)) cs ->
  keeps_wf (walk_codecs cs i v).
Proof.
  intros Hcs. induction i as [|i IH]; cbn [walk_codecs]; [apply keeps_wf_ret|].
  destruct (nth_error cs i) as [c|] eqn:Hnth; [|apply keeps_wf_throw].
  apply keeps_wf_bind.
  - rewrite Forall_forall in Hcs. apply Hcs. eapply nth_error_In. exact Hnth.
  - intros [b|]; [apply keeps_wf_ret | exact IH].
Qed.

Lemma keeps_wf_array (enc : value -> M binary) (arr : list value) :
  Forall (fun x => keeps_wf (enc x)) arr -> keeps_wf (encodeArray_with enc arr).
Proof.
  intros H. unfold encodeArray_with.
  destruct (Z.of_nat (length arr) =? 0); [apply keeps_wf_ret|].
  generalize (container_head 0x90 0xdc 0xdd (Z.of_nat (length arr))).
  induction H as [|x rest Hx Hrest IH]; intros bin; [apply keeps_wf_ret|].
  apply keeps_wf_bind; [exact Hx|]. intros b. apply IH.
Qed.

Lemma keeps_wf_object (e : Encoder) (enc : value -> M binary)
    (obj : list (jsstring * value)) :
  Forall (fun p => keeps_wf (enc (snd p))) obj -> keeps_wf (encodeObject_with e enc obj).
Proof.
  intros H. unfold encodeObject_with.
  destruct (Z.of_nat (length obj) =? 0); [apply keeps_wf_ret|].
  generalize (container_head 0x80 0xde 0xdf (Z.of_nat (length obj))).
  induction H as [|[key x] rest Hx Hrest IH]; intros bin; [apply keeps_wf_ret|].
  apply keeps_wf_bind.
  - unfold encodeObjectKey. destruct (encodeObjectKeys e);
      [apply keeps_wf_ret | apply keeps_wf_encodeStr].
  - intros k. apply keeps_wf_bind; [exact Hx|]. intros b. apply IH.
Qed.

(** X25: the capacity field and the buffer disagree only after a refused
    allocation. If the handler and the codecs leave them in agreement (no
    buffer and capacity 0, or a buffer as long as the capacity says), then
    after every call of [encode] they agree, whether the call returned or
    threw, unless it threw the RangeError of an allocation: [encodeStr]
    assigns the capacity before it allocates. *)
Theorem encode_keeps_scratch_agreement (d : dist) (e : Encoder) (v : value)
    (st : scratch) :
  (forall w, keeps_wf (handler e w)) ->
  Forall (fun c => forall w, keeps_wf (codec_encode c w)) (registered e) ->
  scratch_wf st ->
  fst (encode d e v st) = Throw RangeError \/ scratch_wf (snd (encode d e v st)).
Proof.
  intros Hh Hcs. revert st. change (keeps_wf (encode d e v)).
  induction v as [ | | | z | s | n | b | | arr IH | buf | type data | obj IH ];
    cbn [encode]; try apply Hh; try apply keeps_wf_ret.
  - apply keeps_wf_encodeStr.
  - destruct n; apply keeps_wf_ret.
  - apply keeps_wf_array.
    induction IH as [|x Hx rest Hrest IHrest]; constructor; assumption.
  - assert (Hobj : keeps_wf (encodeObject_with e (encode d e) obj)).
    { apply keeps_wf_object.
      induction IH as [|p Hp rest Hrest IHrest]; constructor; [|assumption].
      destruct Hp as [key _ x Hx]. exact Hx. }
    unfold registered in Hcs. destruct (codecs e) as [cs|]; [|exact Hobj].
    apply keeps_wf_bind; [apply keeps_wf_walk; exact Hcs|].
    intros [bin|]; [apply keeps_wf_ret | exact Hobj].
Qed.

Lemma encode_keeps_scratch_agreement_witness :
  fst (encode v8_6_2 (new_Encoder format_imports default_options)
         (VArray [VStr (repeat 0x20ac 2048); VUndefined]) new_scratch)
  = Throw RangeError
  \/ scratch_wf (snd (encode v8_6_2 (new_Encoder format_imports default_options)
                        (VArray [VStr (repeat 0x20ac 2048); VUndefined]) new_scratch)).
Proof.
  apply (encode_keeps_scratch_agreement v8_6_2
           (new_Encoder format_imports default_options)
           (VArray [VStr (repeat 0x20ac 2048); VUndefined]) new_scratch).
  - intros w st H. right. cbn [new_Encoder handler default_options opt_handler].
    destruct (throwsEncoderHandler_throws w st) as [err ->]. exact H.
  - cbn. constructor.
  - reflexivity.
Defined.

(** After a refused allocation they do disagree: with [bufferMinAlloc] at
    [2^30] a 15-character string asks for [2^31] bytes, the call throws
    RangeError, and the capacity says [2^31] while there is no buffer. *)
Lemma refused_allocation_leaves_disagreement :
  encodeStr (new_Encoder format_imports (with_scratch_settings 15 (2 ^ 30) default_options))
    (repeat 97 15) new_scratch
  = (Throw RangeError, {| buffer := None; bufferAlloc := 2 ^ 31 |}).
Proof. vm_compute. reflexivity. Qed.

(** ** The codec walk and its fallback *)


